(** * cvxconsensus example notebooks: a shallow embedding

    The repository holds two notebooks that assemble a prox-affine problem
    and hand it to the A2DR solver:

    - the sparse inverse covariance estimation notebook;
    - [examples/notebooks/coupled_qp.ipynb], the coupled quadratic program.

    Everything the notebooks compute themselves is embedded below; the
    external collaborators (the A2DR solver, the proximal library, the QP
    backend reached through CVXPY) appear as parameters.

    Number model: NumPy's float64 scalars are modelled by the real numbers
    of the Standard Library, so rounding is not part of this development,
    except in the module [f64], which runs the arithmetic of the data cell
    on binary64 numbers to show where the two differ.
    Arrays are lists: a 1-D array is a [list R], a 2-D array is the list of
    its rows (NumPy's C order). *)

From Stdlib Require Import String Reals Lra Lia Bool Arith List.
From Stdlib Require PrimFloat.
Import ListNotations.
Open Scope R_scope.

(* ================================================================== *)
(** * Part I: the model *)
(* ================================================================== *)

(** ** Python results *)

(** The exceptions the embedded code can raise. *)
Inductive exn : Type :=
| ValueError
| IndexError
| SolverError.

(** A Python computation either returns a value or raises. *)
Inductive py (A : Type) : Type :=
| Ok (a : A)
| Raise (e : exn).

Arguments Ok {A} a.
Arguments Raise {A} e.

Definition bind {A B : Type} (c : py A) (k : A -> py B) : py B :=
  match c with
  | Ok a => k a
  | Raise e => Raise e
  end.

Notation "x <- c ;; k" := (bind c (fun x => k))
  (at level 100, c at next level, right associativity).

(** A list comprehension [[f a for a in l]]. *)
Fixpoint mapM {A B : Type} (f : A -> py B) (l : list A) : py (list B) :=
  match l with
  | [] => Ok []
  | a :: l' => b <- f a ;; bs <- mapM f l' ;; Ok (b :: bs)
  end.

(** [l[i]] for a non-negative index: [IndexError] out of range. *)
Definition index {A : Type} (l : list A) (i : nat) : py A :=
  match nth_error l i with
  | Some a => Ok a
  | None => Raise IndexError
  end.

(** [l[-1]]: the last element, [IndexError] on the empty list. *)
Definition index_last {A : Type} (l : list A) : py A :=
  match rev l with
  | a :: _ => Ok a
  | [] => Raise IndexError
  end.

(** [range(n)]. *)
Definition range (n : nat) : list nat := seq 0 n.

(** ** Lists as arrays *)

Abbreviation vec := (list R) (only parsing).
Abbreviation mat := (list (list R)) (only parsing).

(** Elementwise combination of two arrays of the same length. *)
Fixpoint map2 {A B C : Type} (f : A -> B -> C) (u : list A) (v : list B)
  : list C :=
  match u, v with
  | a :: u', b :: v' => f a b :: map2 f u' v'
  | _, _ => []
  end.

(** Enumeration: [f] receives the position of each element. *)
Fixpoint imap_from {A B : Type} (f : nat -> A -> B) (k : nat) (l : list A)
  : list B :=
  match l with
  | [] => []
  | a :: l' => f k a :: imap_from f (S k) l'
  end.

Definition imap {A B : Type} (f : nat -> A -> B) (l : list A) : list B :=
  imap_from f 0 l.

(** [r] rows of [c] entries each. *)
Definition has_shape {A : Type} (r c : nat) (M : list (list A)) : Prop :=
  length M = r /\ Forall (fun row => length row = c) M.

(** Entry [(i, j)] of a matrix (0 outside). *)
Definition entry (M : mat) (i j : nat) : R := nth j (nth i M []) 0.

(** Boolean comparison of reals, as NumPy's [<=] yields. *)
Definition Rleb (x y : R) : bool := if Rle_dec x y then true else false.

(** ** The NumPy operations the notebooks use

    Arithmetic on arrays is total here; NumPy raises [ValueError] when the
    shapes do not agree, and every theorem below assumes the shapes the
    notebooks have. Operations whose failure a notebook can meet (reshape,
    stacking, the maximum of an empty selection) return a [py] result. *)
Module np.

Definition zeros (n : nat) : vec := repeat 0 n.

(** [np.ones(shape, dtype=bool)] for a 2-D shape. *)
Definition ones_bool (r c : nat) : list (list bool) := repeat (repeat true c) r.

(** [np.eye(n)] (and [sparse.eye(n)], taken densely). *)
Definition eye (n : nat) : mat :=
  map (fun i => map (fun j => if Nat.eqb i j then 1 else 0) (range n)) (range n).

(** [M.shape] of a 2-D array. *)
Definition shape {A : Type} (M : list (list A)) : nat * nat :=
  (length M, length (hd [] M)).

(** [np.fill_diagonal(M, val)]: the entries [(i, i)] are overwritten. *)
Definition fill_diagonal {A : Type} (M : list (list A)) (val : A)
  : list (list A) :=
  imap (fun i row => imap (fun j x => if Nat.eqb i j then val else x) row) M.

Definition abs (v : vec) : vec := map Rabs v.
Definition abs2 (M : mat) : mat := map abs M.

(** [M.ravel(order='C')]: the rows one after the other. *)
Definition ravel {A : Type} (M : list (list A)) : list A := concat M.

(** The rows of [v.reshape((r, c), order='C')]. *)
Fixpoint rows_of {A : Type} (r c : nat) (v : list A) : list (list A) :=
  match r with
  | O => []
  | S r' => firstn c v :: rows_of r' c (skipn c v)
  end.

(** [v.reshape((r, c), order='C')]: [ValueError] unless [v] has [r * c]
    entries. *)
Definition reshape {A : Type} (v : list A) (r c : nat) : py (list (list A)) :=
  if Nat.eqb (length v) (r * c) then Ok (rows_of r c v) else Raise ValueError.

(** [a[mask]] on flat data: the entries whose mask bit is set, in order. *)
Fixpoint compress {A : Type} (mask : list bool) (a : list A) : list A :=
  match mask, a with
  | m :: mask', x :: a' =>
      if m then x :: compress mask' a' else compress mask' a'
  | _, _ => []
  end.

(** [M[mask]] for a 2-D array and a 2-D boolean mask. *)
Definition getitem_mask {A : Type} (M : list (list A))
  (mask : list (list bool)) : list A :=
  compress (ravel mask) (ravel M).

(** [a[mask] = val] on flat data. *)
Definition setitem_mask {A : Type} (a : list A) (mask : list bool) (val : A)
  : list A :=
  map2 (fun (m : bool) x => if m then val else x) mask a.

(** [np.max(v)]: [ValueError] on an empty array. *)
Definition max (v : vec) : py R :=
  match v with
  | [] => Raise ValueError
  | x :: v' => Ok (fold_left Rmax v' x)
  end.

(** [np.sum(v)]. *)
Definition sum (v : vec) : R := fold_right Rplus 0 v.

(** [u.dot(v)] for two 1-D arrays of the same length (NumPy raises
    [ValueError] on different lengths; here the longer one is cut). *)
Fixpoint dot (u v : vec) : R :=
  match u, v with
  | a :: u', b :: v' => a * b + dot u' v'
  | _, _ => 0
  end.

(** [u + v] and [u - v] for two 1-D arrays of the same length (NumPy
    broadcasts a length-1 operand and raises [ValueError] on other
    mismatches; here the longer one is cut). *)
Definition add (u v : vec) : vec := map2 Rplus u v.
Definition sub (u v : vec) : vec := map2 Rminus u v.
Definition neg (v : vec) : vec := map Ropp v.

(** [v + s], [v / s] and [s * v] with a scalar [s] (broadcast). *)
Definition add_scalar (v : vec) (s : R) : vec := map (fun x => x + s) v.
Definition div_scalar (v : vec) (s : R) : vec := map (fun x => x / s) v.
Definition mul_scalar (s : R) (v : vec) : vec := map (fun x => s * x) v.

(** [v * s] with the scalar on the right. *)
Definition mul_by (v : vec) (s : R) : vec := map (fun x => x * s) v.

Definition add2 (A B : mat) : mat := map2 add A B.
Definition neg2 (A : mat) : mat := map neg A.
Definition div_scalar2 (A : mat) (s : R) : mat :=
  map (fun row => div_scalar row s) A.
Definition mul_scalar2 (s : R) (A : mat) : mat :=
  map (fun row => mul_scalar s row) A.

(** [A.dot(x)] for a 2-D [A] whose rows have the length of the 1-D [x]
    (NumPy raises [ValueError] otherwise). *)
Definition matvec (A : mat) (x : vec) : vec := map (fun row => dot row x) A.

(** [x.dot(A)] for a 1-D [x] and a 2-D [A] with [n] columns and as many
    rows as [x] has entries (NumPy raises [ValueError] otherwise): the
    combination of the rows of [A] with the weights [x]. *)
Fixpoint vecmat (n : nat) (x : vec) (A : mat) : vec :=
  match x, A with
  | a :: x', row :: A' => add (mul_scalar a row) (vecmat n x' A')
  | _, _ => zeros n
  end.

(** [A.T]. *)
Fixpoint transpose (n : nat) (A : mat) : mat :=
  match A with
  | [] => repeat [] n
  | row :: A' => map2 cons row (transpose n A')
  end.

(** [A.dot(B)] for two 2-D arrays, [B] with [n] columns. *)
Definition matmul (n : nat) (A B : mat) : mat :=
  map (fun row => vecmat n row B) A.

(** [np.abs(M) <= s] for a 2-D array: a boolean array. *)
Definition abs_le2 (M : mat) (s : R) : list (list bool) :=
  map (fun row => map (fun x => Rleb x s) row) (abs2 M).

(** [M[mask] = val] for a 2-D array and a 2-D mask: the value of [M]
    afterwards. *)
Definition setitem_mask2 (M : mat) (mask : list (list bool)) (val : R) : mat :=
  map2 (fun row mrow => setitem_mask row mrow val) M mask.

(** [np.maximum(v, s)] with a scalar [s]. *)
Definition maximum (v : vec) (s : R) : vec := map (fun x => Rmax x s) v.

(** [np.linalg.norm(v)] of a 1-D array: [sqrt(v.dot(v))]. *)
Definition linalg_norm (v : vec) : R := sqrt (dot v v).

(** [np.hstack] of 1-D arrays: concatenation. *)
Definition hstack1 (vs : list vec) : py vec :=
  match vs with
  | [] => Raise ValueError
  | _ => Ok (concat vs)
  end.

(** [np.hstack] of 2-D arrays: the rows are joined side by side;
    [ValueError] on an empty list or on differing row counts. *)
Fixpoint hstack_rows (Ms : list mat) (r : nat) : mat :=
  match Ms with
  | [] => repeat [] r
  | M :: Ms' => map2 (@app R) M (hstack_rows Ms' r)
  end.

Definition hstack (Ms : list mat) : py mat :=
  match Ms with
  | [] => Raise ValueError
  | M :: _ =>
      if forallb (fun M' => Nat.eqb (length M') (length M)) Ms
      then Ok (hstack_rows Ms (length M))
      else Raise ValueError
  end.

End np.

(** ** The CVXPY objects [prox_qp] builds

    Only the expression forms that occur in the notebook are embedded.
    CVXPY checks shapes, and the symmetry of the matrix of a [quad_form],
    when the expressions are built; those checks are not embedded, the
    theorems assume well-shaped, symmetric data instead. The QP backend
    itself is external: it is a parameter that maps a problem to what the
    backend reports for it. *)
Module cvx.

(** [Variable(n)]: the vector variable of a problem ([Variable] is
    reserved, hence [Var]). *)
Inductive var : Type :=
| Var (n : nat).

(** Scalar expressions in the variable. *)
Inductive expr : Type :=
| quad_form (x : var) (P : mat)      (* quad_form(x, P) *)
| mul_vec (a : vec) (x : var)        (* a*x for a constant 1-D a *)
| plus (e1 e2 : expr).               (* e1 + e2 *)

(** Vector expressions in the variable. *)
Inductive affine : Type :=
| mul_mat (F : mat) (x : var).       (* F*x for a constant 2-D F *)

Inductive constraint : Type :=
| leq (lhs : affine) (rhs : vec).    (* lhs <= rhs, elementwise *)

Inductive objective : Type :=
| Minimize (e : expr).

Inductive problem : Type :=
| Problem (obj : objective) (constr : list constraint).








(** What the backend reports for a problem: an optimal point, one of the
    statuses [infeasible] / [unbounded], or an outright failure. *)
Inductive outcome : Type :=
| optimal (x : vec)
| infeasible
| unbounded
| solver_error.

Definition backend : Type := problem -> outcome.


(** [prob.solve(solver=s)] followed by reading [x.value]. CVXPY stores the
    primal point in the variable when the status is optimal, stores [None]
    when the status is infeasible or unbounded (the call returns normally),
    and raises [SolverError] when the backend fails. *)
Definition solve (s : backend) (prob : problem) : py (option vec) :=
  match s prob with
  | optimal x => Ok (Some x)
  | infeasible => Ok None
  | unbounded => Ok None
  | solver_error => Raise SolverError
  end.

End cvx.

(** A proximal operator as the solver receives it: a callable
    [(point, step) -> point]. *)
Definition prox_op (A : Type) : Type := vec -> R -> py A.

(** ** NumPy array objects and the buffers they share

    An array object is a shape over a buffer; a reshape of a 1-D array is a
    view on the same buffer, and assignment through any view writes the
    buffer. *)
Module nd.

Definition addr : Type := nat.

Record ndarray : Type := { base : addr; shape : list nat }.

(** The heap maps a buffer to its entries in C order. *)
Definition heap : Type := addr -> list R.

Definition write (p : addr) (buf : list R) (h : heap) : heap :=
  fun p' => if Nat.eqb p' p then buf else h p'.

Definition size (a : ndarray) : nat := fold_right Nat.mul 1%nat (shape a).

(** [a.reshape((r, c), order='C')]: a view, the buffer is not copied. *)
Definition reshape (a : ndarray) (r c : nat) : py ndarray :=
  if Nat.eqb (size a) (r * c)
  then Ok {| base := base a; shape := [r; c] |}
  else Raise ValueError.

(** The entries of an array object, flat and as a 2-D value. *)
Definition flat (h : heap) (a : ndarray) : list R := h (base a).

Definition value2 (h : heap) (a : ndarray) : mat :=
  match shape a with
  | [r; c] => np.rows_of r c (flat h a)
  | _ => []
  end.

(** [np.abs(a) <= s]: a fresh boolean array, given by its entries. *)
Definition abs_le (h : heap) (a : ndarray) (s : R) : list bool :=
  map (fun x => Rleb x s) (np.abs (flat h a)).

(** [a[mask] = val]: the buffer of [a] is overwritten in place. *)
Definition setitem_mask (a : ndarray) (mask : list bool) (val : R) (h : heap)
  : heap :=
  write (base a) (np.setitem_mask (flat h a) mask val) h.

End nd.

(* ------------------------------------------------------------------ *)
(** ** Notebook 1: sparse inverse covariance estimation *)
(* ------------------------------------------------------------------ *)
Module Covariance.

(** The dictionary the solver returns; the notebook reads ["x_vals"] only.
    The record stands for a result that carries solution vectors; a result
    whose ["x_vals"] is [None] (the solver gave up) is outside it, and on
    such a result the notebook's indexing raises [TypeError]. *)
Record a2dr_result : Type := { x_vals : list nd.ndarray }.

(** The hard-coded zero-snap tolerance [1e-4]. *)
Definition tol : R := 1e-4.

(** The value of [S] after [S[np.abs(S) <= 1e-4] = 0]. *)
Definition threshold (S : mat) : mat :=
  np.setitem_mask2 S (np.abs_le2 S tol) 0.

(** The same statement on an array object: its buffer is overwritten. *)
Definition threshold_inplace (S : nd.ndarray) (h : nd.heap) : nd.heap :=
  nd.setitem_mask S (nd.abs_le h S tol) 0 h.

(** The result post-processor of one solve (the tail of the loop body):
    [a2dr_S] is a view on the last solution vector, [S_thres] is another
    name for that view, and the threshold assigns through it. *)
Definition post_process (q : nat) (result : a2dr_result)
  (Ss : list nd.ndarray) (h : nd.heap) : py (list nd.ndarray * nd.heap) :=
  x_last <- index_last (x_vals result) ;;
  a2dr_S <- nd.reshape x_last q q ;;
  let S_thres := a2dr_S in
  let h' := threshold_inplace S_thres h in
  Ok (Ss ++ [S_thres], h').

Section Notebook.

Variable q : nat.
(** The sample covariance [Q = np.cov(z_sample)]. *)
Variable Q : mat.
(** The proximal library ([a2dr.proximal]) and the solver are external. *)
Variable prox_neg_log_det : mat -> R -> mat -> py mat.
Variable prox_norm1 : vec -> R -> py vec.
Variable a2dr :
  list (prox_op vec) -> list mat -> vec -> nd.heap ->
  py (a2dr_result * nd.heap).

Definition mask : list (list bool) :=
  let mask := np.ones_bool (fst (np.shape Q)) (snd (np.shape Q)) in
  np.fill_diagonal mask false.

Definition alpha_max : py R := np.max (np.getitem_mask (np.abs2 Q) mask).

Definition alpha_ratios : vec := [1; 0.1; 0.01].

Definition alphas : py vec :=
  alpha_max <- alpha_max ;; Ok (np.mul_by alpha_ratios alpha_max).

Definition prox_list (alpha : R) : list (prox_op vec) :=
  [ (fun v t =>
       V <- np.reshape v q q ;;
       S <- prox_neg_log_det V t (np.mul_scalar2 t Q) ;;
       Ok (np.ravel S));
    (fun v t => prox_norm1 v (t * alpha)) ].

Definition A_list : list mat :=
  [np.eye (q * q); np.neg2 (np.eye (q * q))].

Definition b : vec := np.zeros (q * q).

(** One turn of the loop over [alphas]. *)
Definition solve_for (alpha : R) (Ss : list nd.ndarray) (h : nd.heap)
  : py (list nd.ndarray * nd.heap) :=
  r <- a2dr (prox_list alpha) A_list b h ;;
  let '(result, h1) := r in
  post_process q result Ss h1.

(** The loop [for alpha in alphas], [Ss] starting empty. *)
Fixpoint sweep (alphas : vec) (Ss : list nd.ndarray) (h : nd.heap)
  : py (list nd.ndarray * nd.heap) :=
  match alphas with
  | [] => Ok (Ss, h)
  | alpha :: rest =>
      r <- solve_for alpha Ss h ;;
      let '(Ss', h') := r in
      sweep rest Ss' h'
  end.

End Notebook.

End Covariance.

(* ------------------------------------------------------------------ *)
(** ** Notebook 2: the coupled quadratic program *)
(* ------------------------------------------------------------------ *)
Module CoupledQP.

Section Notebook.

(** The QP backend behind [prob.solve(solver = "OSQP")]. *)
Variable OSQP : cvx.backend.
(** The solver, reduced to the ["x_vals"] it returns. *)
Variable a2dr : list (prox_op (option vec)) -> list mat -> vec -> py (list vec).

(** Number of blocks. *)
Variable L : nat.

(** *** Generate data: the random draws are parameters. *)
Section Data.

Variables (F_list G_list H_list : list mat) (z_tld_list : list vec).

Definition d_list : py (list vec) :=
  mapM (fun l =>
          F <- index F_list l ;;
          z <- index z_tld_list l ;;
          Ok (np.add_scalar (np.matvec F z) 0.1))
       (range L).

Definition Q_list : py (list mat) :=
  mapM (fun l =>
          H <- index H_list l ;;
          let n := snd (np.shape H) in
          Ok (np.matmul n (np.transpose n H) H))
       (range L).

Definition G : py mat := np.hstack G_list.

Definition z_tld : py vec := np.hstack1 z_tld_list.

Definition h : py vec :=
  G <- G ;; z_tld <- z_tld ;; Ok (np.matvec G z_tld).

End Data.

(** *** Define the proximal operator.

    CVXPY raises [ValueError] while the expressions are built when [Q] is
    not symmetric or the shapes of [c], [v], [F], [d] do not fit the
    variable; that path is not embedded, so the function stands for the
    code on well-shaped data with a symmetric [Q], which is what the
    theorems about it assume. *)
Definition prox_qp (v : vec) (t : R) (Q : mat) (c : vec) (F : mat) (d : vec)
  : py (option vec) :=
  let q := fst (np.shape Q) in
  let I := np.eye q in
  (* Construct problem. *)
  let x := cvx.Var q in
  let obj :=
    cvx.plus (cvx.quad_form x (np.add2 Q (np.div_scalar2 I (2 * t))))
             (cvx.mul_vec (np.sub c (np.div_scalar v t)) x) in
  let constr := [cvx.leq (cvx.mul_mat F x) d] in
  let prob := cvx.Problem (cvx.Minimize obj) constr in
  (* Solve with OSQP, return x.value. *)
  cvx.solve OSQP prob.

(** The problem [prox_qp] hands to the backend, written out for a [Q] with
    [n] rows (see [prox_qp_forms] below). *)
Definition qp_problem (n : nat) (v : vec) (t : R) (Q : mat) (c : vec)
  (F : mat) (d : vec) : cvx.problem :=
  cvx.Problem
    (cvx.Minimize
       (cvx.plus
          (cvx.quad_form (cvx.Var n)
             (np.add2 Q (np.div_scalar2 (np.eye n) (2 * t))))
          (cvx.mul_vec (np.sub c (np.div_scalar v t)) (cvx.Var n))))
    [cvx.leq (cvx.mul_mat F (cvx.Var n)) d].

(** *** Solve problem. *)
Definition prox_qp_wrapper (l : nat) (Q_list : list mat) (c_list : list vec)
  (F_list : list mat) (d_list : list vec) : prox_op (option vec) :=
  fun v t =>
    Q <- index Q_list l ;;
    c <- index c_list l ;;
    F <- index F_list l ;;
    d <- index d_list l ;;
    prox_qp v t Q c F d.

Definition prox_list (Q_list : list mat) (c_list : list vec)
  (F_list : list mat) (d_list : list vec) : list (prox_op (option vec)) :=
  map (fun l => prox_qp_wrapper l Q_list c_list F_list d_list) (range L).

Section Report.

Variables (Q_list : list mat) (c_list : list vec).
Variables (F_list : list mat) (d_list : list vec).
Variables (G : mat) (h : vec).
(** [a2dr_x = a2dr_result["x_vals"]]. *)
Variable a2dr_x : list vec.

Definition a2dr_obj : py R :=
  terms <- mapM (fun l =>
                   x <- index a2dr_x l ;;
                   Q <- index Q_list l ;;
                   c <- index c_list l ;;
                   Ok (np.dot (np.vecmat (snd (np.shape Q)) x Q) x
                       + np.dot c x))
                (range L) ;;
  Ok (np.sum terms).

Definition a2dr_constr_vio : py (list R) :=
  vio <- mapM (fun l =>
                 F <- index F_list l ;;
                 x <- index a2dr_x l ;;
                 d <- index d_list l ;;
                 Ok (np.linalg_norm
                       (np.maximum (np.sub (np.matvec F x) d) 0) ^ 2))
              (range L) ;;
  x <- np.hstack1 a2dr_x ;;
  Ok (vio ++ [np.linalg_norm (np.sub (np.matvec G x) h) ^ 2]).

Definition a2dr_constr_vio_val : py R :=
  vio <- a2dr_constr_vio ;; Ok (sqrt (np.sum vio)).

(** What the cell prints, line by line. *)
Definition report : py (list (string * R)) :=
  obj <- a2dr_obj ;;
  vio <- a2dr_constr_vio_val ;;
  Ok [("Objective value:"%string, obj);
      ("Constraint violation:"%string, vio)].

End Report.

(** The whole cell: assemble, solve, report. *)
Definition solve_cell (Q_list : list mat) (c_list : list vec)
  (F_list : list mat) (d_list : list vec) (G_list : list mat) (G : mat)
  (h : vec) : py (list (string * R)) :=
  let prox_list := prox_list Q_list c_list F_list d_list in
  a2dr_x <- a2dr prox_list G_list h ;;
  report Q_list c_list F_list d_list G h a2dr_x.

End Notebook.

End CoupledQP.

(* ------------------------------------------------------------------ *)
(** ** The mathematical statements the notebooks are checked against

    These definitions follow the formulas of the problem statements, entry
    by entry; they do not mention the array operations of the code. *)
(* ------------------------------------------------------------------ *)
Module Spec.

(** [sum_n n f] is the sum of [f i] for [i < n]. *)
Fixpoint sum_n (n : nat) (f : nat -> R) : R :=
  match n with
  | O => 0
  | S n' => sum_n n' f + f n'
  end.

Definition delta (i j : nat) : R := if Nat.eqb i j then 1 else 0.

Definition coord (x : vec) (i : nat) : R := nth i x 0.

(** [x' Q x] for [x] in [R^n]. *)
Definition quad (n : nat) (Q : mat) (x : vec) : R :=
  sum_n n (fun i => sum_n n (fun j => coord x i * entry Q i j * coord x j)).

(** [c' x] for [x] in [R^n]. *)
Definition inner (n : nat) (c x : vec) : R :=
  sum_n n (fun i => coord c i * coord x i).

(** The squared Euclidean norm of a vector. *)
Definition normsq (v : vec) : R :=
  sum_n (length v) (fun i => coord v i * coord v i).

(** [Q] is symmetric. *)
Definition symmetric (n : nat) (Q : mat) : Prop :=
  forall i j, (i < n)%nat -> (j < n)%nat -> entry Q i j = entry Q j i.

(** [Q] is positive semidefinite on [R^n]. *)
Definition psd (n : nat) (Q : mat) : Prop :=
  forall w : vec, length w = n -> 0 <= quad n Q w.


(** [F x <= d], row by row, for [x] in [R^n]. *)
Definition qp_feasible (n : nat) (F : mat) (d : vec) (x : vec) : Prop :=
  length x = n /\
  forall i, (i < length d)%nat ->
            sum_n n (fun j => entry F i j * coord x j) <= coord d i.


(** The zero-snap of one entry: a magnitude of at most [1e-4] becomes
    exactly zero. *)
Definition zero_snap (x : R) : R :=
  if Rle_dec (Rabs x) 1e-4 then 0 else x.

(** The sum of a list of vectors of [R^s]. *)
Definition sum_vec (s : nat) (vs : list vec) : vec :=
  fold_right np.add (np.zeros s) vs.

(** The realized objective: the sum over the blocks of
    [x_l' Q_l x_l + c_l' x_l]. *)
Definition objective_value (L : nat) (Qs : list mat) (cs xs : list vec) : R :=
  sum_n L (fun l =>
    let x := nth l xs [] in
    quad (length x) (nth l Qs []) x + inner (length x) (nth l cs []) x).

(** The squared norm of the clipped residual of one block,
    [sum_i max(sum_j F[i][j] x[j] - d[i], 0)^2], [i] over the entries of
    [d], [j] over those of [x]. *)
Definition clipped_residual_sq (F : mat) (d x : vec) : R :=
  sum_n (length d) (fun i =>
    Rmax (sum_n (length x) (fun j => entry F i j * coord x j) - coord d i) 0
    ^ 2).

(** The squared norm of the equality residual,
    [sum_i (sum_j G[i][j] x[j] - h[i])^2]. *)
Definition equality_residual_sq (G : mat) (h x : vec) : R :=
  sum_n (length h) (fun i =>
    (sum_n (length x) (fun j => entry G i j * coord x j) - coord h i) ^ 2).

(** The constraint violation: the root of the sum of the squared norms of
    the clipped inequality residuals and of the equality residual, the
    latter at the concatenation of the blocks. *)
Definition constraint_violation (L : nat) (Fs : list mat) (ds : list vec)
  (G : mat) (h : vec) (xs : list vec) : R :=
  sqrt (sum_n L (fun l =>
          clipped_residual_sq (nth l Fs []) (nth l ds []) (nth l xs []))
        + equality_residual_sq G h (concat xs)).

(** [a] is the largest absolute value among the off-diagonal entries of
    the [q]-by-[q] matrix [Q]. *)
Definition max_abs_offdiag (q : nat) (Q : mat) (a : R) : Prop :=
  (exists i j, (i < q)%nat /\ (j < q)%nat /\ i <> j /\
               a = Rabs (entry Q i j)) /\
  (forall i j, (i < q)%nat -> (j < q)%nat -> i <> j ->
               Rabs (entry Q i j) <= a).

End Spec.

(** ** The proximal problem behind [prox_qp]

    The notebook introduces [prox_qp] as the proximal oracle of
    [f(x) = x'Qx + c'x] restricted to [F x <= d]: the minimizer of
    [f(x) + ||x - v||^2 / (2t)] over the feasible set. *)
Module Prox.




End Prox.

(** ** The violation as the code computes it

    The value [a2dr_constr_vio_val] returns when no index fails, written as
    one expression in the array operations of the code. *)
Module Report.

Definition violation_value (L : nat) (Fs : list mat) (ds : list vec)
  (G : mat) (h : vec) (xs : list vec) : R :=
  sqrt (Spec.sum_n L (fun l =>
          Spec.normsq (np.maximum
                         (np.sub (np.matvec (nth l Fs []) (nth l xs []))
                                 (nth l ds [])) 0))
        + Spec.normsq (np.sub (np.matvec G (concat xs)) h)).

End Report.

(** ** The data cell on binary64 numbers

    [d_list] with the scalars the notebook really computes with. The sum
    of a dot product is accumulated from left to right here; the order
    NumPy uses does not matter for a product of one term. *)
Module f64.

Import PrimFloat.

(** The binary64 number the literal [0.1] denotes. *)
Definition tenth : float := 0x1.999999999999ap-4%float.

Definition one : float := 1%float.

Definition dot (u v : list float) : float :=
  fold_left (fun acc p => PrimFloat.add acc (PrimFloat.mul (fst p) (snd p)))
            (combine u v) 0%float.

Definition matvec (A : list (list float)) (x : list float) : list float :=
  map (fun row => dot row x) A.

Definition add_scalar (v : list float) (s : float) : list float :=
  map (fun x => PrimFloat.add x s) v.

Definition sub (u v : list float) : list float := map2 PrimFloat.sub u v.

Definition d_list (L : nat) (F_list : list (list (list float)))
  (z_tld_list : list (list float)) : py (list (list float)) :=
  mapM (fun l =>
          F <- index F_list l ;;
          z <- index z_tld_list l ;;
          Ok (add_scalar (matvec F z) tenth))
       (range L).

End f64.

(* ================================================================== *)
(** * Part II: the properties *)
(* ================================================================== *)

(** ** Lists *)

Lemma map2_length {A B C : Type} (f : A -> B -> C) (u : list A) (v : list B) :
  length u = length v -> length (map2 f u v) = length u.
Proof.
  revert v; induction u as [|a u IH]; intros [|b v] H; simpl in *;
    try discriminate; auto.
Qed.

Lemma map2_map_l {A A' B C : Type} (f : A' -> B -> C) (g : A -> A')
  (u : list A) (v : list B) :
  map2 f (map g u) v = map2 (fun a b => f (g a) b) u v.
Proof.
  revert v; induction u as [|a u IH]; intros [|b v]; simpl; auto.
  now rewrite IH.
Qed.

Lemma map2_diag {A C : Type} (f : A -> A -> C) (u : list A) :
  map2 f u u = map (fun a => f a a) u.
Proof. induction u as [|a u IH]; simpl; auto. now rewrite IH. Qed.

Lemma firstn_skipn_app_exact {A : Type} (u v : list A) :
  firstn (length u) (u ++ v) = u /\ skipn (length u) (u ++ v) = v.
Proof. induction u as [|a u [IH1 IH2]]; simpl; auto. now rewrite IH1. Qed.

(** ** Reshaping *)

Lemma ravel_length {A : Type} (r c : nat) (M : list (list A)) :
  has_shape r c M -> length (np.ravel M) = (r * c)%nat.
Proof.
  intros [Hr Hc]; subst r. unfold np.ravel.
  induction Hc as [|row M Hrow _ IH]; simpl; auto.
  rewrite length_app, Hrow, IH. reflexivity.
Qed.

Lemma rows_of_ravel {A : Type} (r c : nat) (M : list (list A)) :
  has_shape r c M -> np.rows_of r c (np.ravel M) = M.
Proof.
  intros [Hr Hc]; subst r. unfold np.ravel.
  induction Hc as [|row M Hrow _ IH]; simpl; auto.
  subst c. destruct (firstn_skipn_app_exact row (concat M)) as [-> ->].
  now rewrite IH.
Qed.

Lemma ravel_rows_of {A : Type} (r c : nat) (v : list A) :
  length v = (r * c)%nat -> np.ravel (np.rows_of r c v) = v.
Proof.
  unfold np.ravel. revert v; induction r as [|r IH]; intros v Hv; simpl in *.
  - now destruct v.
  - rewrite IH by (rewrite length_skipn; lia). apply firstn_skipn.
Qed.

(** The other direction, as the first proximal operator uses it: a flat
    vector that reshapes to [M] is the flattening of [M]. *)
Lemma ravel_reshape {A : Type} (q : nat) (v : list A) (M : list (list A)) :
  np.reshape v q q = Ok M -> np.ravel M = v.
Proof.
  unfold np.reshape. destruct (Nat.eqb_spec (length v) (q * q)) as [E|E];
    [|discriminate].
  intros H. injection H as <-. now apply ravel_rows_of.
Qed.

(** C6. Flattening a [q]-by-[q] matrix in C order and reshaping the flat
    vector back to [q]-by-[q] in C order returns the matrix itself. *)
Theorem reshape_ravel_roundtrip {A : Type} (q : nat) (M : list (list A)) :
  has_shape q q M -> np.reshape (np.ravel M) q q = Ok M.
Proof.
  intros HM. unfold np.reshape.
  rewrite (ravel_length q q M HM), Nat.eqb_refl.
  now rewrite rows_of_ravel.
Qed.

Lemma reshape_ravel_roundtrip_witness :
  has_shape 2 2 [[1; 2]; [3; 4]] /\
  np.reshape (np.ravel [[1; 2]; [3; 4]]) 2 2 = Ok [[1; 2]; [3; 4]].
Proof.
  assert (H : has_shape 2 2 [[1; 2]; [3; 4]]).
  { split; [reflexivity | repeat constructor]. }
  split; [exact H | exact (reshape_ravel_roundtrip 2 _ H)].
Defined.

(** ** Zero-snap thresholding *)

Lemma map2_map_r {A B B' C : Type} (f : A -> B' -> C) (g : B -> B')
  (u : list A) (v : list B) :
  map2 f u (map g v) = map2 (fun a b => f a (g b)) u v.
Proof.
  revert v; induction u as [|a u IH]; intros [|b v]; simpl; auto.
  now rewrite IH.
Qed.

Lemma zero_snap_small (x : R) : Rabs x <= 1e-4 -> Spec.zero_snap x = 0.
Proof. intros H. unfold Spec.zero_snap. now destruct (Rle_dec (Rabs x) 1e-4). Qed.

Lemma zero_snap_large (x : R) : 1e-4 < Rabs x -> Spec.zero_snap x = x.
Proof.
  intros H. unfold Spec.zero_snap.
  destruct (Rle_dec (Rabs x) 1e-4); [lra | reflexivity].
Qed.

Lemma zero_snap_idem (x : R) :
  Spec.zero_snap (Spec.zero_snap x) = Spec.zero_snap x.
Proof.
  destruct (Rle_dec (Rabs x) 1e-4) as [H|H].
  - rewrite (zero_snap_small x H). apply zero_snap_small.
    rewrite Rabs_R0. lra.
  - rewrite (zero_snap_large x) by lra. apply zero_snap_large. lra.
Qed.

(** The masked assignment of the code, row by row, is the zero-snap of
    every entry. *)
Lemma setitem_abs_le (row : vec) :
  np.setitem_mask row (map (fun x => Rleb x Covariance.tol) (np.abs row)) 0
  = map Spec.zero_snap row.
Proof.
  unfold np.setitem_mask, np.abs.
  rewrite !map2_map_l, map2_diag. apply map_ext. intros x.
  unfold Rleb, Spec.zero_snap, Covariance.tol.
  now destruct (Rle_dec (Rabs x) 1e-4).
Qed.

Lemma threshold_entrywise (S : mat) :
  Covariance.threshold S = map (map Spec.zero_snap) S.
Proof.
  unfold Covariance.threshold, np.setitem_mask2, np.abs_le2, np.abs2.
  rewrite !map2_map_r, map2_diag. apply map_ext. intros row.
  apply setitem_abs_le.
Qed.

Lemma threshold_inplace_entrywise (S : nd.ndarray) (h : nd.heap) :
  Covariance.threshold_inplace S h
  = nd.write (nd.base S) (map Spec.zero_snap (h (nd.base S))) h.
Proof.
  unfold Covariance.threshold_inplace, nd.setitem_mask, nd.abs_le, nd.flat.
  now rewrite setitem_abs_le.
Qed.

Lemma write_same (p : nd.addr) (buf : list R) (h : nd.heap) :
  nd.write p buf h p = buf.
Proof. unfold nd.write. now rewrite Nat.eqb_refl. Qed.

Lemma write_other (p p' : nd.addr) (buf : list R) (h : nd.heap) :
  p' <> p -> nd.write p buf h p' = h p'.
Proof.
  intros H. unfold nd.write.
  now destruct (Nat.eqb_spec p' p).
Qed.

(** C7. The zero-snap threshold is idempotent: on every matrix value, and
    on every array object (thresholding in place a second time leaves
    every buffer as the first pass left it). *)
Theorem threshold_idempotent :
  (forall M : mat,
     Covariance.threshold (Covariance.threshold M) = Covariance.threshold M)
  /\
  (forall (S : nd.ndarray) (h : nd.heap) (p : nd.addr),
     Covariance.threshold_inplace S (Covariance.threshold_inplace S h) p
     = Covariance.threshold_inplace S h p).
Proof.
  split.
  - intros M. rewrite !threshold_entrywise, map_map.
    apply map_ext. intros row. rewrite map_map.
    apply map_ext. exact zero_snap_idem.
  - intros S h p. rewrite !threshold_inplace_entrywise.
    rewrite write_same.
    destruct (Nat.eq_dec p (nd.base S)) as [->|Hp].
    + rewrite !write_same, map_map. apply map_ext. exact zero_snap_idem.
    + now rewrite !write_other by exact Hp.
Qed.

(** ** The covariance post-processor writes through a view *)

Lemma index_last_app {A : Type} (l : list A) (a : A) :
  index_last (l ++ [a]) = Ok a.
Proof. unfold index_last. now rewrite rev_app_distr. Qed.

Lemma post_process_eq (q : nat) (xs : list nd.ndarray) (x_last : nd.ndarray)
  (Ss : list nd.ndarray) (h : nd.heap) :
  nd.size x_last = (q * q)%nat ->
  Covariance.post_process q {| Covariance.x_vals := xs ++ [x_last] |} Ss h
  = Ok (Ss ++ [{| nd.base := nd.base x_last; nd.shape := [q; q] |}],
        nd.write (nd.base x_last)
                 (map Spec.zero_snap (h (nd.base x_last))) h).
Proof.
  intros Hsize. unfold Covariance.post_process. simpl.
  rewrite index_last_app. simpl.
  unfold nd.reshape. rewrite Hsize, Nat.eqb_refl. simpl.
  now rewrite threshold_inplace_entrywise.
Qed.

Lemma rows_of_map {A B : Type} (f : A -> B) (r c : nat) (v : list A) :
  np.rows_of r c (map f v) = map (map f) (np.rows_of r c v).
Proof.
  revert v; induction r as [|r IH]; intros v; simpl; auto.
  now rewrite firstn_map, skipn_map, IH.
Qed.

(** C3, as the code has it. The solver result is not protected: the
    post-processor reshapes the last solution vector into a view, and the
    threshold assigns through that view. After the call the last solution
    vector stored in the result holds its zero-snapped entries, the matrix
    kept for plotting is that same buffer seen as [q]-by-[q], and every
    array in another buffer is untouched. *)
Theorem post_process_overwrites_last_only (q : nat) (xs : list nd.ndarray)
  (x_last : nd.ndarray) (Ss : list nd.ndarray) (h : nd.heap) :
  nd.size x_last = (q * q)%nat ->
  exists (S_thres : nd.ndarray) (h' : nd.heap),
    Covariance.post_process q {| Covariance.x_vals := xs ++ [x_last] |} Ss h
    = Ok (Ss ++ [S_thres], h') /\
    nd.base S_thres = nd.base x_last /\
    nd.shape S_thres = [q; q] /\
    nd.flat h' x_last = map Spec.zero_snap (nd.flat h x_last) /\
    nd.value2 h' S_thres
    = Covariance.threshold (np.rows_of q q (nd.flat h x_last)) /\
    (forall x : nd.ndarray,
       nd.base x <> nd.base x_last -> nd.flat h' x = nd.flat h x).
Proof.
  intros Hsize.
  eexists; eexists. split; [apply post_process_eq; exact Hsize|].
  unfold nd.value2; simpl. unfold nd.flat; simpl.
  rewrite write_same, threshold_entrywise, rows_of_map.
  repeat split; auto.
  intros x Hx. now apply write_other.
Qed.

Lemma post_process_overwrites_last_only_witness :
  exists (S_thres : nd.ndarray) (h' : nd.heap),
    Covariance.post_process 1
      {| Covariance.x_vals :=
           [{| nd.base := 0%nat; nd.shape := [1%nat] |}]
           ++ [{| nd.base := 1%nat; nd.shape := [1%nat] |}] |}
      [] (fun p => if Nat.eqb p 1 then [5e-5] else [1])
    = Ok ([] ++ [S_thres], h') /\
    nd.base S_thres = 1%nat /\
    nd.shape S_thres = [1%nat; 1%nat] /\
    nd.flat h' {| nd.base := 1%nat; nd.shape := [1%nat] |}
    = map Spec.zero_snap [5e-5] /\
    nd.value2 h' S_thres = Covariance.threshold [[5e-5]] /\
    (forall x : nd.ndarray,
       nd.base x <> 1%nat ->
       nd.flat h' x = nd.flat (fun p => if Nat.eqb p 1 then [5e-5] else [1]) x).
Proof.
  exact (post_process_overwrites_last_only 1
           [{| nd.base := 0%nat; nd.shape := [1%nat] |}]
           {| nd.base := 1%nat; nd.shape := [1%nat] |} []
           (fun p => if Nat.eqb p 1 then [5e-5] else [1]) eq_refl).
Defined.

(** C3, as stated, fails: with two solution vectors [[1]] and [[5e-5]] in
    the result and [q = 1], the post-processor returns normally and the
    second vector stored in the result has become [[0]]. *)
Lemma post_process_mutates_result :
  let h0 : nd.heap := fun p => if Nat.eqb p 1 then [5e-5] else [1] in
  let x1 := {| nd.base := 0%nat; nd.shape := [1%nat] |} in
  let x2 := {| nd.base := 1%nat; nd.shape := [1%nat] |} in
  let result := {| Covariance.x_vals := [x1; x2] |} in
  exists (Ss' : list nd.ndarray) (h' : nd.heap),
    Covariance.post_process 1 result [] h0 = Ok (Ss', h') /\
    nd.flat h0 x2 = [5e-5] /\
    nd.flat h' x2 = [0] /\
    nd.flat h' x2 <> nd.flat h0 x2.
Proof.
  intros h0 x1 x2 result.
  eexists; eexists. split.
  - exact (post_process_eq 1 [x1] x2 [] h0 eq_refl).
  - unfold nd.flat; simpl. rewrite write_same. unfold h0; simpl.
    rewrite zero_snap_small by (rewrite Rabs_pos_eq; lra).
    repeat split; auto.
    intros H. injection H as H. lra.
Qed.

(** ** The coupled QP: every operator is bound to its own block *)

Lemma index_nth_error {A : Type} (l : list A) (i : nat) (a : A) :
  nth_error l i = Some a -> index l i = Ok a.
Proof. intros H. unfold index. now rewrite H. Qed.

Lemma nth_error_range (n i : nat) :
  (i < n)%nat -> nth_error (range n) i = Some i.
Proof.
  intros H. unfold range. rewrite nth_error_seq.
  destruct (Nat.ltb_spec i n); [reflexivity | lia].
Qed.

(** C4. The list handed to the solver has [L] operators, and the operator
    at position [l] is [prox_qp] on the data of block [l]: it looks up
    index [l] of each list, whatever the position of the last block, and
    when the four lists hold a block [l] it is [prox_qp] on exactly that
    block's [(Q, c, F, d)]. *)
Theorem prox_list_binds_own_block (OSQP : cvx.backend) (L : nat)
  (Q_list : list mat) (c_list : list vec) (F_list : list mat)
  (d_list : list vec) (l : nat) :
  (l < L)%nat ->
  length (CoupledQP.prox_list OSQP L Q_list c_list F_list d_list) = L /\
  exists op : prox_op (option vec),
    nth_error (CoupledQP.prox_list OSQP L Q_list c_list F_list d_list) l
    = Some op /\
    (forall v t,
       op v t = (Q <- index Q_list l ;;
                 c <- index c_list l ;;
                 F <- index F_list l ;;
                 d <- index d_list l ;;
                 CoupledQP.prox_qp OSQP v t Q c F d)) /\
    (forall Q c F d,
       nth_error Q_list l = Some Q -> nth_error c_list l = Some c ->
       nth_error F_list l = Some F -> nth_error d_list l = Some d ->
       forall v t, op v t = CoupledQP.prox_qp OSQP v t Q c F d).
Proof.
  intros Hl. unfold CoupledQP.prox_list. split.
  - unfold range. now rewrite length_map, length_seq.
  - eexists. split.
    + rewrite nth_error_map, (nth_error_range L l Hl). reflexivity.
    + split.
      * intros v t. reflexivity.
      * intros Q c F d HQ Hc HF Hd v t. unfold CoupledQP.prox_qp_wrapper.
        rewrite (index_nth_error _ _ _ HQ), (index_nth_error _ _ _ Hc),
          (index_nth_error _ _ _ HF), (index_nth_error _ _ _ Hd).
        reflexivity.
Qed.

Lemma prox_list_binds_own_block_witness :
  length (CoupledQP.prox_list (fun _ => cvx.optimal [0]) 2
            [[[1]]; [[2]]] [[3]; [4]] [[[5]]; [[6]]] [[7]; [8]]) = 2%nat /\
  exists op : prox_op (option vec),
    nth_error (CoupledQP.prox_list (fun _ => cvx.optimal [0]) 2
                 [[[1]]; [[2]]] [[3]; [4]] [[[5]]; [[6]]] [[7]; [8]]) 0
    = Some op /\
    (forall v t,
       op v t = (Q <- index [[[1]]; [[2]]] 0 ;;
                 c <- index [[3]; [4]] 0 ;;
                 F <- index [[[5]]; [[6]]] 0 ;;
                 d <- index [[7]; [8]] 0 ;;
                 CoupledQP.prox_qp (fun _ => cvx.optimal [0]) v t Q c F d)) /\
    (forall Q c F d,
       nth_error [[[1]]; [[2]]] 0 = Some Q -> nth_error [[3]; [4]] 0 = Some c ->
       nth_error [[[5]]; [[6]]] 0 = Some F -> nth_error [[7]; [8]] 0 = Some d ->
       forall v t,
         op v t = CoupledQP.prox_qp (fun _ => cvx.optimal [0]) v t Q c F d).
Proof.
  apply (prox_list_binds_own_block (fun _ => cvx.optimal [0]) 2
           [[[1]]; [[2]]] [[3]; [4]] [[[5]]; [[6]]] [[7]; [8]] 0).
  lia.
Defined.

(** ** Linear algebra on lists *)

Lemma sum_n_ext (n : nat) (f g : nat -> R) :
  (forall i, (i < n)%nat -> f i = g i) -> Spec.sum_n n f = Spec.sum_n n g.
Proof.
  induction n as [|n IH]; intros H; simpl; auto.
  rewrite IH, H by (intros; try apply H; lia). reflexivity.
Qed.

Lemma sum_n_shift (n : nat) (f : nat -> R) :
  Spec.sum_n (S n) f = f 0%nat + Spec.sum_n n (fun i => f (S i)).
Proof.
  induction n as [|n IH]; simpl in *; [lra|]. rewrite IH. lra.
Qed.


Lemma sum_n_scal (n : nat) (a : R) (f : nat -> R) :
  Spec.sum_n n (fun i => a * f i) = a * Spec.sum_n n f.
Proof. induction n as [|n IH]; simpl; [lra|]. rewrite IH. lra. Qed.

Lemma sum_n_nonneg (n : nat) (f : nat -> R) :
  (forall i, (i < n)%nat -> 0 <= f i) -> 0 <= Spec.sum_n n f.
Proof.
  induction n as [|n IH]; intros H; simpl; [lra|].
  assert (0 <= Spec.sum_n n f) by (apply IH; intros; apply H; lia).
  assert (0 <= f n) by (apply H; lia). lra.
Qed.

Lemma dot_nil_r (u : vec) : np.dot u [] = 0.
Proof. now destruct u. Qed.


Lemma dot_add_l (u v w : vec) :
  length u = length v ->
  np.dot (np.add u v) w = np.dot u w + np.dot v w.
Proof.
  unfold np.add. revert v w; induction u as [|a u IH]; intros [|b v] w H;
    simpl in *; try discriminate; [lra|].
  destruct w as [|c w]; simpl; [lra|].
  rewrite IH by lia. lra.
Qed.


Lemma dot_mul_scalar_l (a : R) (u w : vec) :
  np.dot (np.mul_scalar a u) w = a * np.dot u w.
Proof.
  unfold np.mul_scalar. revert w; induction u as [|b u IH]; intros [|c w];
    simpl; try lra.
  rewrite IH. lra.
Qed.






Lemma dot_self_nonneg (w : vec) : 0 <= np.dot w w.
Proof. induction w as [|a w IH]; simpl; [lra | nra]. Qed.

Lemma dot_self_zero (w : vec) : np.dot w w = 0 -> w = np.zeros (length w).
Proof.
  induction w as [|a w IH]; simpl; intros H; auto.
  pose proof (dot_self_nonneg w) as Hw.
  assert (Ha : a = 0) by nra.
  assert (Hz : np.dot w w = 0) by nra.
  unfold np.zeros in *. simpl. now rewrite Ha, <- IH.
Qed.

Lemma dot_sum_n (n : nat) (u v : vec) :
  length u = n -> length v = n ->
  np.dot u v = Spec.sum_n n (fun i => Spec.coord u i * Spec.coord v i).
Proof.
  revert u v; induction n as [|n IH]; intros [|a u] [|b v] Hu Hv;
    simpl in *; try discriminate; auto.
  rewrite (IH u v) by lia.
  change (a * b + Spec.sum_n n (fun i => Spec.coord u i * Spec.coord v i)
          = Spec.sum_n (S n)
              (fun i => Spec.coord (a :: u) i * Spec.coord (b :: v) i)).
  now rewrite sum_n_shift.
Qed.

Lemma matvec_length (A : mat) (x : vec) : length (np.matvec A x) = length A.
Proof. unfold np.matvec. apply length_map. Qed.






Lemma matvec_neg2 (A : mat) (x : vec) :
  np.matvec (np.neg2 A) x = np.neg (np.matvec A x).
Proof.
  unfold np.matvec, np.neg2, np.neg at 2. rewrite !map_map.
  apply map_ext. intros row. unfold np.neg.
  revert x; induction row as [|a row IH]; intros [|b x]; simpl; try lra.
  rewrite IH. lra.
Qed.

Lemma coord_matvec (A : mat) (x : vec) (i : nat) :
  (i < length A)%nat ->
  Spec.coord (np.matvec A x) i = np.dot (nth i A []) x.
Proof.
  intros H. unfold Spec.coord, np.matvec.
  rewrite (nth_indep _ 0 (np.dot [] x)) by (now rewrite length_map).
  now rewrite (map_nth (fun row => np.dot row x)).
Qed.

(** *** The identity matrix *)

Lemma map_nth_range {A : Type} (d : A) (x : list A) :
  map (fun i => nth i x d) (range (length x)) = x.
Proof.
  unfold range. induction x as [|a x IH]; simpl; auto.
  rewrite <- seq_shift, map_map. simpl. now rewrite IH.
Qed.

Lemma dot_delta_row (i m k : nat) (x : vec) :
  length x = m ->
  np.dot (map (fun j => if Nat.eqb i j then 1 else 0) (seq k m)) x
  = if (k <=? i)%nat && (i <? k + m)%nat then nth (i - k) x 0 else 0.
Proof.
  revert k x; induction m as [|m IH]; intros k [|a x] Hx; simpl in *;
    try discriminate.
  - destruct (Nat.leb_spec k i), (Nat.ltb_spec i (k + 0)); simpl; auto; lia.
  - rewrite (IH (S k) x) by lia.
    destruct (Nat.eqb_spec i k) as [->|Hik].
    + replace (k - k)%nat with 0%nat by lia.
      destruct (Nat.leb_spec (S k) k), (Nat.leb_spec k k),
        (Nat.ltb_spec k (k + S m)); simpl; try lia; lra.
    + destruct (Nat.leb_spec (S k) i), (Nat.leb_spec k i),
        (Nat.ltb_spec i (S k + m)), (Nat.ltb_spec i (k + S m));
        simpl; try lia; try lra.
      replace (i - k)%nat with (S (i - S k)) by lia. simpl. lra.
Qed.

Lemma matvec_eye (n : nat) (x : vec) :
  length x = n -> np.matvec (np.eye n) x = x.
Proof.
  intros Hx. unfold np.matvec, np.eye. rewrite map_map.
  transitivity (map (fun i => nth i x 0) (range n));
    [|rewrite <- Hx; apply map_nth_range].
  apply map_ext_in. intros i Hi. unfold range in *.
  apply in_seq in Hi. rewrite (dot_delta_row i n 0 x Hx).
  destruct (Nat.leb_spec 0 i), (Nat.ltb_spec i (0 + n)); simpl; try lia.
  now rewrite Nat.sub_0_r.
Qed.

Lemma eye_shape (n : nat) : has_shape n n (np.eye n).
Proof.
  unfold has_shape, np.eye, range. split.
  - now rewrite length_map, length_seq.
  - apply Forall_forall. intros row Hrow.
    apply in_map_iff in Hrow as [i [<- _]].
    now rewrite length_map, length_seq.
Qed.

Lemma entry_eye (n i j : nat) :
  (i < n)%nat -> (j < n)%nat -> entry (np.eye n) i j = Spec.delta i j.
Proof.
  intros Hi Hj. unfold entry, np.eye, Spec.delta, range.
  rewrite (nth_indep _ [] (map (fun j => if Nat.eqb 0 j then 1 else 0)
                                (seq 0 n)))
    by (now rewrite length_map, length_seq).
  rewrite (map_nth (fun i => map (fun j => if Nat.eqb i j then 1 else 0)
                                 (seq 0 n))).
  rewrite seq_nth by exact Hi. simpl.
  rewrite (nth_indep _ 0 (if Nat.eqb i 0 then 1 else 0))
    by (now rewrite length_map, length_seq).
  rewrite (map_nth (fun j => if Nat.eqb i j then 1 else 0)).
  now rewrite seq_nth by exact Hj.
Qed.

(** ** The covariance problem in standard form *)

Lemma entry_neg2 (A : mat) (r c i j : nat) :
  has_shape r c A -> (i < r)%nat -> (j < c)%nat ->
  entry (np.neg2 A) i j = - entry A i j.
Proof.
  intros [Hr Hc] Hi Hj. unfold entry, np.neg2.
  change (@nil R) with (np.neg []) at 1. rewrite (map_nth np.neg).
  assert (Hrow : length (nth i A []) = c).
  { rewrite Forall_forall in Hc. apply Hc, nth_In. lia. }
  unfold np.neg.
  rewrite (nth_indep (map Ropp (nth i A [])) 0 (- 0)).
  2:{ rewrite length_map. lia. }
  now rewrite (map_nth Ropp).
Qed.

Lemma neg2_shape (r c : nat) (A : mat) :
  has_shape r c A -> has_shape r c (np.neg2 A).
Proof.
  intros [Hr Hc]. unfold has_shape, np.neg2, np.neg. split.
  - now rewrite length_map.
  - apply Forall_map. eapply Forall_impl; [|exact Hc].
    intros row Hrow. simpl. now rewrite length_map.
Qed.

Lemma add_zeros_r (v : vec) : np.add v (np.zeros (length v)) = v.
Proof.
  unfold np.add, np.zeros. induction v as [|a v IH]; simpl; auto.
  rewrite IH. f_equal. lra.
Qed.

Lemma add_neg_zeros_iff (u v : vec) :
  length u = length v ->
  (np.add u (np.neg v) = np.zeros (length u) <-> u = v).
Proof.
  unfold np.add, np.neg, np.zeros.
  revert v; induction u as [|a u IH]; intros [|b v] H; simpl in *;
    try discriminate; [tauto|].
  specialize (IH v ltac:(lia)). split; intros E.
  - injection E as E1 E2. f_equal; [lra | now apply IH].
  - injection E as -> ->. f_equal; [lra | now apply IH].
Qed.

Lemma zeros_length (n : nat) : length (np.zeros n) = n.
Proof. apply repeat_length. Qed.

Lemma coord_zeros (n i : nat) : Spec.coord (np.zeros n) i = 0.
Proof.
  unfold Spec.coord, np.zeros. revert i.
  induction n as [|n IH]; intros [|i]; simpl; auto.
Qed.

Lemma neg_length (v : vec) : length (np.neg v) = length v.
Proof. apply length_map. Qed.

Lemma coupling_identity (n : nat) (x1 x2 : vec) :
  length x1 = n -> length x2 = n ->
  Spec.sum_vec n (map2 np.matvec [np.eye n; np.neg2 (np.eye n)] [x1; x2])
  = np.add x1 (np.neg x2).
Proof.
  intros H1 H2. unfold Spec.sum_vec. simpl.
  rewrite matvec_neg2, !matvec_eye by assumption.
  f_equal. rewrite <- H2, <- (neg_length x2). apply add_zeros_r.
Qed.

(** C9. For every [alpha] the solver receives two proximal operators, the
    matrix list [[I, -I]] with [I] the identity of size [q*q], and the zero
    vector of [R^(q*q)]: as many matrices as operators, every matrix with
    [q*q] rows and [q*q] columns, [q*q] being the length of [b]; and the
    coupling [A_1 x1 + A_2 x2 = b] says exactly [x1 = x2]. *)
Theorem covariance_standard_form (q : nat) (Q : mat)
  (prox_neg_log_det : mat -> R -> mat -> py mat)
  (prox_norm1 : vec -> R -> py vec)
  (a2dr : list (prox_op vec) -> list mat -> vec -> nd.heap ->
          py (Covariance.a2dr_result * nd.heap))
  (alpha : R) :
  (forall Ss h,
     Covariance.solve_for q Q prox_neg_log_det prox_norm1 a2dr alpha Ss h
     = (r <- a2dr (Covariance.prox_list q Q prox_neg_log_det prox_norm1 alpha)
                  (Covariance.A_list q) (Covariance.b q) h ;;
        Covariance.post_process q (fst r) Ss (snd r))) /\
  length (Covariance.prox_list q Q prox_neg_log_det prox_norm1 alpha)
  = 2%nat /\
  length (Covariance.A_list q)
  = length (Covariance.prox_list q Q prox_neg_log_det prox_norm1 alpha) /\
  Forall (has_shape (q * q) (q * q)) (Covariance.A_list q) /\
  length (Covariance.b q) = (q * q)%nat /\
  (forall i, Spec.coord (Covariance.b q) i = 0) /\
  (forall i j, (i < q * q)%nat -> (j < q * q)%nat ->
     entry (nth 0 (Covariance.A_list q) []) i j = Spec.delta i j /\
     entry (nth 1 (Covariance.A_list q) []) i j = - Spec.delta i j) /\
  (forall x1 x2 : vec,
     length x1 = (q * q)%nat -> length x2 = (q * q)%nat ->
     (Spec.sum_vec (q * q) (map2 np.matvec (Covariance.A_list q) [x1; x2])
      = Covariance.b q
      <-> x1 = x2)).
Proof.
  pose proof (eye_shape (q * q)) as HI.
  repeat split.
  - intros Ss h. unfold Covariance.solve_for.
    destruct (a2dr _ _ _ h) as [[result h1]|e]; reflexivity.
  - constructor; [exact HI|]. constructor; [|constructor].
    now apply neg2_shape.
  - apply zeros_length.
  - intros i. apply coord_zeros.
  - simpl. now apply entry_eye.
  - simpl. rewrite (entry_neg2 _ _ _ i j HI) by assumption.
    now rewrite entry_eye.
  - unfold Covariance.A_list, Covariance.b.
    rewrite (coupling_identity _ _ _ H H0), <- H.
    apply add_neg_zeros_iff. lia.
  - unfold Covariance.A_list, Covariance.b.
    rewrite (coupling_identity _ _ _ H H0), <- H.
    apply add_neg_zeros_iff. lia.
Qed.

(** ** The largest off-diagonal entry and the sweep of [alpha] *)

Lemma imap_from_length {A B : Type} (f : nat -> A -> B) (k : nat)
  (l : list A) : length (imap_from f k l) = length l.
Proof. revert k; induction l as [|a l IH]; intros k; simpl; auto. Qed.

Lemma nth_error_imap_from {A B : Type} (f : nat -> A -> B) (k : nat)
  (l : list A) (i : nat) :
  nth_error (imap_from f k l) i = option_map (f (k + i)%nat) (nth_error l i).
Proof.
  revert k i; induction l as [|a l IH]; intros k [|i]; simpl; auto.
  - now rewrite Nat.add_0_r.
  - rewrite IH. now replace (S k + i)%nat with (k + S i)%nat by lia.
Qed.

Lemma nth_error_map2 {A B C : Type} (f : A -> B -> C) (u : list A)
  (v : list B) (i : nat) :
  nth_error (map2 f u v) i
  = match nth_error u i, nth_error v i with
    | Some a, Some b => Some (f a b)
    | _, _ => None
    end.
Proof.
  revert v i; induction u as [|a u IH]; intros [|b v] [|i]; simpl; auto.
  now destruct (nth_error u i).
Qed.

Lemma nth_error_map_inv {A B : Type} (f : A -> B) (l : list A) (i : nat)
  (y : B) :
  nth_error (map f l) i = Some y ->
  exists x, nth_error l i = Some x /\ y = f x.
Proof.
  rewrite nth_error_map. destruct (nth_error l i) as [x|]; simpl;
    intros H; [|discriminate].
  injection H as <-. now exists x.
Qed.

Lemma Forall2_nth_error {A B : Type} (P : A -> B -> Prop) (u : list A)
  (v : list B) :
  length u = length v ->
  (forall i a b, nth_error u i = Some a -> nth_error v i = Some b -> P a b) ->
  Forall2 P u v.
Proof.
  revert v; induction u as [|a u IH]; intros [|b v] Hlen H; simpl in *;
    try discriminate; constructor.
  - now apply (H 0%nat).
  - apply IH; [lia|]. intros i a' b' Ha Hb. now apply (H (S i)).
Qed.

Lemma compress_app {A : Type} (m ms : list bool) (a a' : list A) :
  length m = length a ->
  np.compress (m ++ ms) (a ++ a') = np.compress m a ++ np.compress ms a'.
Proof.
  revert a; induction m as [|bit m IH]; intros [|x a] H; simpl in *;
    try discriminate; auto.
  rewrite IH by lia. now destruct bit.
Qed.

Lemma compress_concat {A : Type} (ms : list (list bool))
  (rows : list (list A)) :
  Forall2 (fun (m : list bool) (a : list A) => length m = length a) ms rows ->
  np.compress (concat ms) (concat rows) = concat (map2 np.compress ms rows).
Proof.
  induction 1 as [|m a ms rows Hlen _ IH]; simpl; auto.
  now rewrite compress_app, IH.
Qed.

Lemma In_compress {A : Type} (x : A) (m : list bool) (a : list A) :
  In x (np.compress m a) <->
  exists j, nth_error m j = Some true /\ nth_error a j = Some x.
Proof.
  revert a; induction m as [|bit m IH]; intros [|y a]; simpl.
  - split; [tauto | intros [[|j] [H _]]; discriminate].
  - split; [tauto | intros [[|j] [H _]]; discriminate].
  - split; [tauto | intros [[|j] [_ H]]; discriminate].
  - destruct bit; simpl; rewrite IH; split.
    + intros [->|[j Hj]]; [now exists 0%nat | now exists (S j)].
    + intros [[|j] [H1 H2]]; simpl in *.
      * left. congruence.
      * right. now exists j.
    + intros [j Hj]. now exists (S j).
    + intros [[|j] [H1 H2]]; simpl in *; [discriminate | now exists j].
Qed.

Lemma mask_row (q : nat) (Q : mat) (i : nat) :
  has_shape q q Q -> (i < q)%nat ->
  nth_error (Covariance.mask Q) i
  = Some (imap (fun j x => if Nat.eqb i j then false else x) (repeat true q)).
Proof.
  intros [Hr Hc] Hi. unfold Covariance.mask, np.fill_diagonal, np.ones_bool.
  unfold imap at 1. rewrite nth_error_imap_from. simpl.
  assert (Hcols : length (hd [] Q) = q).
  { destruct Q as [|row Q]; simpl in *; [lia|]. now inversion Hc. }
  rewrite Hcols, Hr, (nth_error_repeat (repeat true q) Hi). reflexivity.
Qed.

Lemma mask_length (q : nat) (Q : mat) :
  has_shape q q Q -> length (Covariance.mask Q) = q.
Proof.
  intros [Hr Hc]. unfold Covariance.mask, np.fill_diagonal, np.ones_bool, imap.
  simpl. now rewrite imap_from_length, repeat_length.
Qed.

Lemma mask_bit (q i j : nat) :
  (j < q)%nat ->
  nth_error (imap (fun j x => if Nat.eqb i j then false else x)
                  (repeat true q)) j
  = Some (negb (Nat.eqb i j)).
Proof.
  intros Hj. unfold imap. rewrite nth_error_imap_from. simpl.
  rewrite (nth_error_repeat true Hj). simpl. now destruct (Nat.eqb i j).
Qed.

Lemma entry_nth_error (M : mat) (i j : nat) (row : vec) (x : R) :
  nth_error M i = Some row -> nth_error row j = Some x -> entry M i j = x.
Proof.
  intros Hi Hj. unfold entry.
  now rewrite (nth_error_nth M i [] Hi), (nth_error_nth row j 0 Hj).
Qed.

Lemma shape_row (q c : nat) (Q : mat) (i : nat) (row : vec) :
  has_shape q c Q -> nth_error Q i = Some row -> length row = c.
Proof.
  intros [_ Hc] Hi. rewrite Forall_forall in Hc.
  apply Hc. eapply nth_error_In; eauto.
Qed.

Lemma In_offdiag (q : nat) (Q : mat) (a : R) :
  has_shape q q Q ->
  (In a (np.getitem_mask (np.abs2 Q) (Covariance.mask Q)) <->
   exists i j, (i < q)%nat /\ (j < q)%nat /\ i <> j /\
               a = Rabs (entry Q i j)).
Proof.
  intros HQ. pose proof HQ as [Hr Hc]. unfold np.getitem_mask, np.ravel.
  rewrite compress_concat.
  2:{ apply Forall2_nth_error.
      - unfold np.abs2. now rewrite (mask_length q Q HQ), length_map.
      - intros i m row Hm Hrow.
        assert (Hi : (i < q)%nat).
        { rewrite <- (mask_length q Q HQ). apply nth_error_Some. congruence. }
        rewrite (mask_row q Q i HQ Hi) in Hm. injection Hm as <-.
        unfold np.abs2 in Hrow.
        apply nth_error_map_inv in Hrow as [r [Er ->]].
        unfold imap, np.abs.
        rewrite imap_from_length, repeat_length, length_map.
        symmetry. eapply shape_row; eauto. }
  rewrite in_concat. split.
  - intros [sel [Hsel Ha]].
    apply In_nth_error in Hsel as [i Hi]. rewrite nth_error_map2 in Hi.
    destruct (nth_error (Covariance.mask Q) i) as [m|] eqn:Em;
      [|discriminate].
    destruct (nth_error (np.abs2 Q) i) as [row|] eqn:Erow; [|discriminate].
    injection Hi as <-.
    assert (Hiq : (i < q)%nat).
    { rewrite <- (mask_length q Q HQ). apply nth_error_Some. congruence. }
    rewrite (mask_row q Q i HQ Hiq) in Em. injection Em as <-.
    apply In_compress in Ha as [j [Hbit Hx]].
    unfold np.abs2 in Erow.
    apply nth_error_map_inv in Erow as [r [Er ->]].
    unfold np.abs in Hx.
    apply nth_error_map_inv in Hx as [x [Ex ->]].
    assert (Hjq : (j < q)%nat).
    { rewrite <- (shape_row q q Q i r HQ Er). apply nth_error_Some.
      congruence. }
    rewrite (mask_bit q i j Hjq) in Hbit. injection Hbit as Hbit.
    exists i, j. repeat split; auto.
    + intros ->. now rewrite Nat.eqb_refl in Hbit.
    + now rewrite (entry_nth_error Q i j r x Er Ex).
  - intros [i [j [Hi [Hj [Hij ->]]]]].
    destruct (nth_error Q i) as [r|] eqn:Er.
    2:{ apply nth_error_None in Er. lia. }
    destruct (nth_error r j) as [x|] eqn:Ex.
    2:{ apply nth_error_None in Ex.
        rewrite (shape_row q q Q i r HQ Er) in Ex. lia. }
    rewrite (entry_nth_error Q i j r x Er Ex).
    exists (np.compress
              (imap (fun j x => if Nat.eqb i j then false else x)
                    (repeat true q))
              (np.abs r)).
    split.
    + eapply nth_error_In with (n := i). rewrite nth_error_map2.
      rewrite (mask_row q Q i HQ Hi). unfold np.abs2.
      erewrite map_nth_error; [reflexivity | exact Er].
    + apply In_compress. exists j. split.
      * rewrite (mask_bit q i j Hj).
        destruct (Nat.eqb_spec i j); [contradiction | reflexivity].
      * unfold np.abs. erewrite map_nth_error; [reflexivity | exact Ex].
Qed.

Lemma fold_left_Rmax_spec (v : vec) (x : R) :
  (fold_left Rmax v x = x \/ In (fold_left Rmax v x) v) /\
  x <= fold_left Rmax v x /\
  (forall y, In y v -> y <= fold_left Rmax v x).
Proof.
  revert x; induction v as [|a v IH]; intros x; simpl.
  - split; [now left|]. split; [lra | tauto].
  - destruct (IH (Rmax x a)) as [Hin [Hle Hub]].
    pose proof (Rmax_l x a). pose proof (Rmax_r x a).
    split; [|split].
    + destruct Hin as [E|Hin]; [|now right; right].
      rewrite E. unfold Rmax. destruct (Rle_dec x a); [right|]; auto.
    + lra.
    + intros y [<-|Hy]; [lra | now apply Hub].
Qed.

Lemma max_spec (v : vec) :
  v <> [] ->
  exists m, np.max v = Ok m /\ In m v /\ forall y, In y v -> y <= m.
Proof.
  destruct v as [|x v]; [congruence|]. intros _. simpl.
  destruct (fold_left_Rmax_spec v x) as [Hin [Hle Hub]].
  eexists. split; [reflexivity|]. split.
  - destruct Hin as [E|Hin]; [left; now rewrite E | now right].
  - intros y [<-|Hy]; [exact Hle | now apply Hub].
Qed.

(** C8. For a [q]-by-[q] sample covariance [Q] ([q >= 2], so that there is
    an off-diagonal entry), [alpha_max] is the largest absolute value among
    the off-diagonal entries of [Q], and the swept sequence is
    [[alpha_max, 0.1*alpha_max, 0.01*alpha_max]], in that order. *)
Theorem alpha_max_and_sweep (q : nat) (Q : mat) :
  has_shape q q Q -> (2 <= q)%nat ->
  exists a : R,
    Covariance.alpha_max Q = Ok a /\
    Spec.max_abs_offdiag q Q a /\
    Covariance.alphas Q = Ok [a; 0.1 * a; 0.01 * a].
Proof.
  intros HQ Hq.
  destruct (max_spec (np.getitem_mask (np.abs2 Q) (Covariance.mask Q)))
    as [a [Ha [Hin Hub]]].
  { intros E.
    assert (Hin : In (Rabs (entry Q 0 1))
                     (np.getitem_mask (np.abs2 Q) (Covariance.mask Q))).
    { apply (In_offdiag q Q _ HQ). exists 0%nat, 1%nat.
      repeat split; auto; lia. }
    rewrite E in Hin. exact Hin. }
  exists a. split; [exact Ha|]. split; [split|].
  - now apply (In_offdiag q Q a HQ).
  - intros i j Hi Hj Hij. apply Hub, (In_offdiag q Q _ HQ).
    now exists i, j.
  - unfold Covariance.alphas. unfold Covariance.alpha_max in Ha.
    unfold Covariance.alpha_max. rewrite Ha. simpl.
    now rewrite Rmult_1_l.
Qed.

Lemma alpha_max_and_sweep_witness :
  exists a : R,
    Covariance.alpha_max [[1; -2]; [3; 4]] = Ok a /\
    Spec.max_abs_offdiag 2 [[1; -2]; [3; 4]] a /\
    Covariance.alphas [[1; -2]; [3; 4]] = Ok [a; 0.1 * a; 0.01 * a].
Proof.
  apply (alpha_max_and_sweep 2 [[1; -2]; [3; 4]]).
  - split; [reflexivity | repeat constructor].
  - lia.
Defined.

(** ** The coupled QP: the generated problem is feasible *)

Lemma index_nth {A : Type} (l : list A) (i : nat) (d : A) :
  (i < length l)%nat -> index l i = Ok (nth i l d).
Proof.
  intros H. apply index_nth_error. now apply nth_error_nth'.
Qed.

Lemma mapM_seq_ok {B : Type} (f : nat -> py B) (g : nat -> B) (k n : nat) :
  (forall i, (k <= i < k + n)%nat -> f i = Ok (g i)) ->
  mapM f (seq k n) = Ok (map g (seq k n)).
Proof.
  revert k; induction n as [|n IH]; intros k H; simpl; auto.
  rewrite H by lia. simpl. rewrite IH by (intros; apply H; lia).
  reflexivity.
Qed.

Lemma mapM_range_ok {B : Type} (f : nat -> py B) (g : nat -> B) (n : nat) :
  (forall i, (i < n)%nat -> f i = Ok (g i)) ->
  mapM f (range n) = Ok (map g (range n)).
Proof. intros H. apply mapM_seq_ok. intros i Hi. apply H. lia. Qed.

Lemma nth_error_map_range {B : Type} (g : nat -> B) (n i : nat) (y : B) :
  nth_error (map g (range n)) i = Some y -> (i < n)%nat /\ y = g i.
Proof.
  intros H. apply nth_error_map_inv in H as [j [Hj ->]].
  unfold range in Hj. rewrite nth_error_seq in Hj.
  destruct (Nat.ltb_spec i n); [|discriminate].
  injection Hj as <-. auto.
Qed.

Lemma add_scalar_slack (u : vec) (s : R) :
  0 < s ->
  Forall2 (fun a b => b - a = s /\ a < b) u (np.add_scalar u s).
Proof.
  intros Hs. unfold np.add_scalar.
  induction u as [|a u IH]; simpl; constructor; auto.
  split; lra.
Qed.

Lemma dot_app (u u' v v' : vec) :
  length u = length v ->
  np.dot (u ++ u') (v ++ v') = np.dot u v + np.dot u' v'.
Proof.
  revert v; induction u as [|a u IH]; intros [|b v] H; simpl in *;
    try discriminate; [lra|].
  rewrite IH by lia. lra.
Qed.

Lemma matvec_hstack2 (M H : mat) (z zz : vec) :
  Forall (fun row : vec => length row = length z) M ->
  np.matvec (map2 (@app R) M H) (z ++ zz)
  = np.add (np.matvec M z) (np.matvec H zz).
Proof.
  unfold np.matvec, np.add. intros HM. revert H.
  induction HM as [|row M Hrow _ IH]; intros [|hrow H]; simpl; auto.
  now rewrite IH, dot_app.
Qed.

Lemma matvec_hstack_rows (s : nat) (Gs : list mat) (zs : list vec) :
  Forall2 (fun (G : mat) (z : vec) =>
             Forall (fun row : vec => length row = length z) G) Gs zs ->
  np.matvec (np.hstack_rows Gs s) (concat zs)
  = Spec.sum_vec s (map2 np.matvec Gs zs).
Proof.
  induction 1 as [|G z Gs zs HG _ IH]; simpl.
  - unfold np.matvec, np.zeros. rewrite map_repeat. reflexivity.
  - rewrite matvec_hstack2 by exact HG. now rewrite IH.
Qed.

Lemma hstack_ok (s : nat) (G : mat) (Gs : list mat) :
  Forall (fun G' : mat => length G' = s) (G :: Gs) ->
  np.hstack (G :: Gs) = Ok (np.hstack_rows (G :: Gs) s).
Proof.
  intros H. unfold np.hstack.
  assert (Hs : length G = s) by now inversion H.
  rewrite Hs.
  match goal with
  | |- (if ?c then _ else _) = _ => assert (E : c = true)
  end.
  { apply forallb_forall. intros G' HG'.
    rewrite Forall_forall in H. rewrite (H G' HG'). apply Nat.eqb_refl. }
  now rewrite E.
Qed.

(** C10, in exact arithmetic. For well-shaped blocks ([F_l] and [G_l] with
    as many columns as [z_tld_l] has entries, every [G_l] with [s] rows)
    the generated problem is feasible by construction: [d_l] is
    [F_l z_tld_l + 0.1], so over the reals every row of every block
    inequality holds at [z_tld_l] with slack exactly [0.1] (hence
    strictly); and [h] is [G] applied to the stacked [z_tld], which is the
    sum over the blocks of [G_l z_tld_l], so the coupling equality
    holds. *)
Theorem generated_problem_feasible (L s : nat) (F_list G_list : list mat)
  (z_tld_list : list vec) :
  (1 <= L)%nat ->
  length F_list = L -> length G_list = L -> length z_tld_list = L ->
  Forall2 (fun (F : mat) (z : vec) =>
             Forall (fun row : vec => length row = length z) F)
          F_list z_tld_list ->
  Forall (fun G : mat => length G = s) G_list ->
  Forall2 (fun (G : mat) (z : vec) =>
             Forall (fun row : vec => length row = length z) G)
          G_list z_tld_list ->
  exists (ds : list vec) (hv : vec),
    CoupledQP.d_list L F_list z_tld_list = Ok ds /\
    CoupledQP.h G_list z_tld_list = Ok hv /\
    length ds = L /\
    (forall l F z d,
       nth_error F_list l = Some F -> nth_error z_tld_list l = Some z ->
       nth_error ds l = Some d ->
       Forall2 (fun a b => b - a = 0.1 /\ a < b) (np.matvec F z) d) /\
    Spec.sum_vec s (map2 np.matvec G_list z_tld_list) = hv.
Proof.
  intros HL HF HG Hz _ Hrows Hcols.
  exists (map (fun l => np.add_scalar
                          (np.matvec (nth l F_list []) (nth l z_tld_list []))
                          0.1) (range L)).
  exists (np.matvec (np.hstack_rows G_list s) (concat z_tld_list)).
  split; [|split; [|split; [|split]]].
  - unfold CoupledQP.d_list. apply mapM_range_ok. intros i Hi.
    rewrite (index_nth F_list i []), (index_nth z_tld_list i []) by lia.
    reflexivity.
  - unfold CoupledQP.h, CoupledQP.G, CoupledQP.z_tld.
    destruct G_list as [|G Gs]; [simpl in HG; lia|].
    rewrite (hstack_ok s G Gs Hrows). simpl.
    destruct z_tld_list as [|z zs]; [simpl in Hz; lia|]. reflexivity.
  - unfold range. now rewrite length_map, length_seq.
  - intros l F z d HlF Hlz Hld.
    apply nth_error_map_range in Hld as [Hl ->].
    rewrite (nth_error_nth F_list l [] HlF), (nth_error_nth z_tld_list l [] Hlz).
    apply add_scalar_slack. lra.
  - symmetry. now apply matvec_hstack_rows.
Qed.

Lemma generated_problem_feasible_witness :
  exists (ds : list vec) (hv : vec),
    CoupledQP.d_list 2 [[[1; 2]]; [[3]]] [[1; 1]; [2]] = Ok ds /\
    CoupledQP.h [[[1; 0]]; [[5]]] [[1; 1]; [2]] = Ok hv /\
    length ds = 2%nat /\
    (forall l F z d,
       nth_error [[[1; 2]]; [[3]]] l = Some F ->
       nth_error [[1; 1]; [2]] l = Some z ->
       nth_error ds l = Some d ->
       Forall2 (fun a b => b - a = 0.1 /\ a < b) (np.matvec F z) d) /\
    Spec.sum_vec 1 (map2 np.matvec [[[1; 0]]; [[5]]] [[1; 1]; [2]]) = hv.
Proof.
  apply (generated_problem_feasible 2 1 [[[1; 2]]; [[3]]] [[[1; 0]]; [[5]]]
           [[1; 1]; [2]]); try reflexivity; try lia.
  - repeat constructor.
  - repeat constructor.
  - repeat constructor.
Defined.

(** C10, as stated, fails in the arithmetic the notebook runs: on binary64
    numbers, for [F = [[1]]] and [z_tld = [1]] the cell computes
    [d = 1 + 0.1 = 1.1000000000000001], and the slack [d - F z] is
    [0.10000000000000009], larger than the binary64 [0.1], not equal to
    it. *)
Lemma generated_slack_inexact_in_binary64 :
  exists d slack : PrimFloat.float,
    f64.d_list 1 [[[f64.one]]] [[f64.one]] = Ok [[d]] /\
    f64.sub [d] (f64.matvec [[f64.one]] [f64.one]) = [slack] /\
    PrimFloat.ltb f64.tenth slack = true /\
    slack <> f64.tenth.
Proof.
  exists (PrimFloat.add f64.one f64.tenth).
  exists (PrimFloat.sub (PrimFloat.add f64.one f64.tenth) f64.one).
  split; [vm_compute; reflexivity|].
  split; [vm_compute; reflexivity|].
  split; [vm_compute; reflexivity|].
  intros H.
  apply (f_equal (fun x => PrimFloat.eqb x f64.tenth)) in H.
  vm_compute in H. discriminate H.
Qed.

(** ** The coupled QP: the reported objective and violation *)

Lemma add_length (u v : vec) :
  length u = length v -> length (np.add u v) = length u.
Proof. apply map2_length. Qed.

Lemma mul_scalar_length (a : R) (u : vec) :
  length (np.mul_scalar a u) = length u.
Proof. apply length_map. Qed.

Lemma vecmat_length (n : nat) (x : vec) (A : mat) :
  Forall (fun row : vec => length row = n) A ->
  length (np.vecmat n x A) = n.
Proof.
  intros HA. revert x. induction HA as [|row A Hrow _ IH]; intros [|a x];
    simpl; try apply zeros_length.
  rewrite add_length; rewrite mul_scalar_length; [exact Hrow|].
  now rewrite IH.
Qed.

Lemma dot_zeros_l (n : nat) (y : vec) : np.dot (np.zeros n) y = 0.
Proof.
  unfold np.zeros. revert y; induction n as [|n IH]; intros [|b y]; simpl;
    auto. rewrite IH. lra.
Qed.

(** [x.dot(A).dot(y)] is [x' (A y)]. *)
Lemma dot_vecmat (n : nat) (x : vec) (A : mat) (y : vec) :
  Forall (fun row : vec => length row = n) A ->
  np.dot (np.vecmat n x A) y = np.dot x (np.matvec A y).
Proof.
  intros HA. revert x. induction HA as [|row A Hrow HA IH]; intros [|a x];
    simpl; try apply dot_zeros_l.
  rewrite dot_add_l.
  - now rewrite dot_mul_scalar_l, IH.
  - now rewrite mul_scalar_length, vecmat_length.
Qed.

Lemma quad_dot (n : nat) (Q : mat) (x : vec) :
  has_shape n n Q -> length x = n ->
  np.dot x (np.matvec Q x) = Spec.quad n Q x.
Proof.
  intros [Hr Hc] Hx. unfold Spec.quad.
  rewrite (dot_sum_n n) by (rewrite ?matvec_length; assumption).
  apply sum_n_ext. intros i Hi.
  rewrite coord_matvec by lia.
  assert (Hrow : length (nth i Q []) = n).
  { rewrite Forall_forall in Hc. apply Hc, nth_In. lia. }
  rewrite (dot_sum_n n _ _ Hrow Hx), <- sum_n_scal.
  apply sum_n_ext. intros j Hj. unfold entry, Spec.coord. lra.
Qed.

Lemma cols_of_shape {A : Type} (r c : nat) (M : list (list A)) :
  has_shape r c M -> (0 < r)%nat -> snd (np.shape M) = c.
Proof.
  intros [Hr Hc] Hpos. destruct M as [|row M]; simpl in *; [lia|].
  now inversion Hc.
Qed.

Lemma quad_vecmat (n : nat) (Q : mat) (x : vec) :
  has_shape n n Q -> length x = n ->
  np.dot (np.vecmat (snd (np.shape Q)) x Q) x = Spec.quad n Q x.
Proof.
  intros HQ Hx. destruct n as [|n].
  - destruct x; [|discriminate]. destruct HQ as [HQ _].
    destruct Q; [reflexivity | discriminate].
  - rewrite (cols_of_shape _ _ Q HQ) by lia.
    rewrite dot_vecmat by apply HQ. now apply quad_dot.
Qed.

Lemma normsq_dot (v : vec) : np.dot v v = Spec.normsq v.
Proof. unfold Spec.normsq. now apply dot_sum_n. Qed.

Lemma linalg_norm_sq (v : vec) : np.linalg_norm v ^ 2 = Spec.normsq v.
Proof.
  unfold np.linalg_norm. rewrite pow2_sqrt by apply dot_self_nonneg.
  apply normsq_dot.
Qed.

Lemma sum_app (u v : vec) : np.sum (u ++ v) = np.sum u + np.sum v.
Proof.
  unfold np.sum. induction u as [|a u IH]; simpl; [lra|]. rewrite IH. lra.
Qed.

Lemma sum_map_range (g : nat -> R) (n : nat) :
  np.sum (map g (range n)) = Spec.sum_n n g.
Proof.
  unfold range. induction n as [|n IH]; [reflexivity|].
  rewrite seq_S, map_app, sum_app, IH. unfold np.sum. simpl. lra.
Qed.

Lemma hstack1_ok (vs : list vec) :
  vs <> [] -> np.hstack1 vs = Ok (concat vs).
Proof. destruct vs; [congruence | reflexivity]. Qed.

(** ** The coupled QP: the proximal subproblem *)

Lemma prox_qp_forms (OSQP : cvx.backend) (n : nat) (v : vec) (t : R)
  (Q : mat) (c : vec) (F : mat) (d : vec) :
  length Q = n ->
  CoupledQP.prox_qp OSQP v t Q c F d
  = cvx.solve OSQP (CoupledQP.qp_problem n v t Q c F d).
Proof. intros <-. reflexivity. Qed.

Lemma coord_map2 (f : R -> R -> R) (u v : vec) (i : nat) :
  (i < length u)%nat -> length u = length v ->
  Spec.coord (map2 f u v) i = f (Spec.coord u i) (Spec.coord v i).
Proof.
  intros Hi Hlen. unfold Spec.coord.
  apply nth_error_nth. rewrite nth_error_map2.
  rewrite (nth_error_nth' u 0), (nth_error_nth' v 0) by lia. reflexivity.
Qed.

Lemma coord_map (f : R -> R) (u : vec) (i : nat) :
  (i < length u)%nat -> Spec.coord (map f u) i = f (Spec.coord u i).
Proof.
  intros Hi. unfold Spec.coord. apply nth_error_nth.
  rewrite nth_error_map, (nth_error_nth' u 0) by lia. reflexivity.
Qed.

Lemma row_length (r c : nat) (M : mat) (i : nat) :
  has_shape r c M -> (i < r)%nat -> length (nth i M []) = c.
Proof.
  intros [Hr Hc] Hi. rewrite Forall_forall in Hc. apply Hc, nth_In. lia.
Qed.


Lemma row_map (f : vec -> vec) (A : mat) (i : nat) :
  (i < length A)%nat -> nth i (map f A) [] = f (nth i A []).
Proof.
  intros Hi. apply nth_error_nth.
  rewrite nth_error_map, (nth_error_nth' A []) by lia. reflexivity.
Qed.





Lemma sub_length (u v : vec) :
  length u = length v -> length (np.sub u v) = length u.
Proof. apply map2_length. Qed.





(** *** Strong convexity: the minimizer is unique *)





Lemma sub_zeros_eq (x y : vec) :
  length x = length y -> np.sub x y = np.zeros (length x) -> x = y.
Proof.
  unfold np.sub, np.zeros.
  revert y; induction x as [|a x IH]; intros [|b y] H E; simpl in *;
    try discriminate; auto.
  injection E as E1 E2. f_equal; [lra | apply IH; [lia | exact E2]].
Qed.






(** ** The coupled QP: what happens on an infeasible subproblem *)

(** C2, as the code has it. [prox_qp] reads no status: on a well-formed
    call ([Q] symmetric positive semidefinite of size [n], [c] and [v] in
    [R^n], [F] with [n] columns and as many rows as [d], [t > 0]), when
    the backend reports the subproblem infeasible or unbounded the call
    returns normally and its result is [None]; no exception is raised. *)
Theorem prox_qp_status_not_checked (OSQP : cvx.backend) (n : nat) (v : vec)
  (t : R) (Q : mat) (c : vec) (F : mat) (d : vec) :
  has_shape n n Q -> length c = n -> length v = n ->
  length F = length d -> Forall (fun row : vec => length row = n) F ->
  Spec.symmetric n Q -> Spec.psd n Q -> 0 < t ->
  OSQP (CoupledQP.qp_problem n v t Q c F d) = cvx.infeasible \/
  OSQP (CoupledQP.qp_problem n v t Q c F d) = cvx.unbounded ->
  CoupledQP.prox_qp OSQP v t Q c F d = Ok None /\
  (forall e, CoupledQP.prox_qp OSQP v t Q c F d <> Raise e).
Proof.
  intros HQ _ _ _ _ _ _ _ Hreport.
  rewrite (prox_qp_forms OSQP n v t Q c F d (proj1 HQ)).
  unfold cvx.solve.
  destruct Hreport as [-> | ->]; (split; [reflexivity | discriminate]).
Qed.

Lemma prox_qp_status_not_checked_witness :
  CoupledQP.prox_qp (fun _ => cvx.infeasible) [0] 1 [[0]] [0] [[0]] [-1]
  = Ok None /\
  (forall e,
     CoupledQP.prox_qp (fun _ => cvx.infeasible) [0] 1 [[0]] [0] [[0]] [-1]
     <> Raise e).
Proof.
  apply (prox_qp_status_not_checked (fun _ => cvx.infeasible) 1 [0] 1 [[0]]
           [0] [[0]] [-1]); try reflexivity.
  - split; [reflexivity | repeat constructor].
  - repeat constructor.
  - intros i j Hi Hj.
    now replace i with 0%nat by lia; replace j with 0%nat by lia.
  - intros w Hw. unfold Spec.quad, Spec.coord, entry. simpl. lra.
  - lra.
  - now left.
Defined.

(** C2, as stated, fails: on the infeasible block [0 * x <= -1], with a
    backend that reports it infeasible, [prox_qp] returns [None] and
    raises nothing. *)
Lemma prox_qp_infeasible_returns_none :
  (forall y, ~ Spec.qp_feasible 1 [[0]] [-1] y) /\
  CoupledQP.prox_qp (fun _ => cvx.infeasible) [0] 1 [[0]] [0] [[0]] [-1]
  = Ok None /\
  (forall e,
     CoupledQP.prox_qp (fun _ => cvx.infeasible) [0] 1 [[0]] [0] [[0]] [-1]
     <> Raise e).
Proof.
  split; [|split].
  - intros y [_ Hfeas]. specialize (Hfeas 0%nat ltac:(simpl; lia)).
    unfold Spec.coord, entry in Hfeas. simpl in Hfeas. lra.
  - reflexivity.
  - intros e. discriminate.
Qed.

(** ** The coupled QP: the reported violation *)

Lemma maximum_length (w : vec) (s : R) : length (np.maximum w s) = length w.
Proof. apply length_map. Qed.

Lemma constr_vio_val_eq (L : nat) (F_list : list mat) (d_list : list vec)
  (G : mat) (h : vec) (a2dr_x : list vec) :
  (1 <= L)%nat ->
  length a2dr_x = L -> length F_list = L -> length d_list = L ->
  CoupledQP.a2dr_constr_vio_val L F_list d_list G h a2dr_x
  = Ok (Report.violation_value L F_list d_list G h a2dr_x).
Proof.
  intros HL Hx HF Hd.
  unfold CoupledQP.a2dr_constr_vio_val, CoupledQP.a2dr_constr_vio.
  rewrite (mapM_range_ok _
             (fun l => np.linalg_norm
                         (np.maximum
                            (np.sub (np.matvec (nth l F_list [])
                                               (nth l a2dr_x []))
                                    (nth l d_list [])) 0) ^ 2)).
  - unfold bind at 1.
    rewrite hstack1_ok by (destruct a2dr_x; simpl in *; [lia|congruence]).
    unfold bind. rewrite sum_app, sum_map_range.
    unfold Report.violation_value. f_equal. f_equal. f_equal.
    + apply sum_n_ext. intros l Hl. apply linalg_norm_sq.
    + unfold np.sum. simpl. rewrite Rplus_0_r. apply linalg_norm_sq.
  - intros l Hl.
    rewrite (index_nth F_list l []), (index_nth a2dr_x l []),
      (index_nth d_list l []) by lia.
    reflexivity.
Qed.

Lemma coord_matvec_sum (F : mat) (x : vec) (i : nat) :
  Forall (fun row : vec => length row = length x) F -> (i < length F)%nat ->
  Spec.coord (np.matvec F x) i
  = Spec.sum_n (length x) (fun j => entry F i j * Spec.coord x j).
Proof.
  intros HF Hi. rewrite coord_matvec by exact Hi.
  apply dot_sum_n; [|reflexivity].
  rewrite Forall_forall in HF. apply HF, nth_In. exact Hi.
Qed.

(** The clipped residual of the code, entry by entry. *)
Lemma clipped_residual_np (F : mat) (d x : vec) :
  Forall (fun row : vec => length row = length x) F ->
  length F = length d ->
  Spec.normsq (np.maximum (np.sub (np.matvec F x) d) 0)
  = Spec.clipped_residual_sq F d x.
Proof.
  intros HF HFd.
  assert (Hlen : length (np.matvec F x) = length d)
    by now rewrite matvec_length.
  unfold Spec.normsq, Spec.clipped_residual_sq.
  rewrite maximum_length, (sub_length _ _ Hlen), Hlen.
  apply sum_n_ext. intros i Hi.
  unfold np.maximum. rewrite coord_map by (rewrite (sub_length _ _ Hlen); lia).
  unfold np.sub. rewrite coord_map2 by lia.
  rewrite (coord_matvec_sum F x i HF) by lia. ring.
Qed.

Lemma equality_residual_np (G : mat) (h x : vec) :
  Forall (fun row : vec => length row = length x) G ->
  length G = length h ->
  Spec.normsq (np.sub (np.matvec G x) h) = Spec.equality_residual_sq G h x.
Proof.
  intros HG HGh.
  assert (Hlen : length (np.matvec G x) = length h)
    by now rewrite matvec_length.
  unfold Spec.normsq, Spec.equality_residual_sq.
  rewrite (sub_length _ _ Hlen), Hlen.
  apply sum_n_ext. intros i Hi.
  unfold np.sub. rewrite coord_map2 by lia.
  rewrite (coord_matvec_sum G x i HG) by lia. ring.
Qed.

(** The value the code computes is the violation of the specification. *)
Lemma violation_value_spec (L : nat) (Fs : list mat) (ds : list vec)
  (G : mat) (h : vec) (xs : list vec) :
  (forall l, (l < L)%nat ->
     Forall (fun row : vec => length row = length (nth l xs []))
            (nth l Fs []) /\
     length (nth l Fs []) = length (nth l ds [])) ->
  Forall (fun row : vec => length row = length (concat xs)) G ->
  length G = length h ->
  Report.violation_value L Fs ds G h xs
  = Spec.constraint_violation L Fs ds G h xs.
Proof.
  intros HF HG HGh. unfold Report.violation_value, Spec.constraint_violation.
  f_equal. f_equal.
  - apply sum_n_ext. intros l Hl. destruct (HF l Hl) as [H1 H2].
    now apply clipped_residual_np.
  - now apply equality_residual_np.
Qed.

(** C5. For well-shaped blocks the post-processor reports the realized
    objective [sum_l (x_l' Q_l x_l + c_l' x_l)] and the violation
    [sqrt (sum_l ||max(F_l x_l - d_l, 0)||^2 + ||G x - h||^2)], [x] being
    the concatenation of the [x_l], both written out entry by entry; both
    are returned whatever their values, nothing is checked against
    them. *)
Theorem report_objective_and_violation (L : nat) (Q_list : list mat)
  (c_list : list vec) (F_list : list mat) (d_list : list vec) (G : mat)
  (h : vec) (a2dr_x : list vec) :
  (1 <= L)%nat ->
  length a2dr_x = L -> length Q_list = L -> length c_list = L ->
  length F_list = L -> length d_list = L ->
  (forall l, (l < L)%nat ->
     has_shape (length (nth l a2dr_x [])) (length (nth l a2dr_x []))
               (nth l Q_list []) /\
     length (nth l c_list []) = length (nth l a2dr_x [])) ->
  CoupledQP.a2dr_obj L Q_list c_list a2dr_x
  = Ok (Spec.objective_value L Q_list c_list a2dr_x) /\
  ((forall l, (l < L)%nat ->
      Forall (fun row : vec => length row = length (nth l a2dr_x []))
             (nth l F_list []) /\
      length (nth l F_list []) = length (nth l d_list [])) ->
   Forall (fun row : vec => length row = length (concat a2dr_x)) G ->
   length G = length h ->
   CoupledQP.a2dr_constr_vio_val L F_list d_list G h a2dr_x
   = Ok (Spec.constraint_violation L F_list d_list G h a2dr_x) /\
   CoupledQP.report L Q_list c_list F_list d_list G h a2dr_x
   = Ok [("Objective value:"%string,
          Spec.objective_value L Q_list c_list a2dr_x);
         ("Constraint violation:"%string,
          Spec.constraint_violation L F_list d_list G h a2dr_x)]).
Proof.
  intros HL Hx HQ Hc HF Hd Hshape.
  assert (Hobj : CoupledQP.a2dr_obj L Q_list c_list a2dr_x
                 = Ok (Spec.objective_value L Q_list c_list a2dr_x)).
  { unfold CoupledQP.a2dr_obj.
    rewrite (mapM_range_ok _
               (fun l => np.dot (np.vecmat (snd (np.shape (nth l Q_list [])))
                                           (nth l a2dr_x []) (nth l Q_list []))
                                (nth l a2dr_x [])
                         + np.dot (nth l c_list []) (nth l a2dr_x []))).
    - unfold bind. rewrite sum_map_range. unfold Spec.objective_value.
      f_equal. apply sum_n_ext. intros l Hl.
      destruct (Hshape l Hl) as [HQl Hcl]. cbv zeta.
      rewrite (quad_vecmat _ _ _ HQl eq_refl).
      unfold Spec.inner. now rewrite (dot_sum_n _ _ _ Hcl eq_refl).
    - intros l Hl.
      rewrite (index_nth a2dr_x l []), (index_nth Q_list l []),
        (index_nth c_list l []) by lia.
      reflexivity. }
  split; [exact Hobj|]. intros HFs HG HGh.
  assert (Hvio : CoupledQP.a2dr_constr_vio_val L F_list d_list G h a2dr_x
                 = Ok (Spec.constraint_violation L F_list d_list G h a2dr_x)).
  { rewrite constr_vio_val_eq by assumption.
    now rewrite violation_value_spec. }
  split; [exact Hvio|].
  unfold CoupledQP.report. rewrite Hobj. simpl. rewrite Hvio. reflexivity.
Qed.

Lemma report_objective_and_violation_witness :
  CoupledQP.a2dr_obj 1 [[[2]]] [[1]] [[1]]
  = Ok (Spec.objective_value 1 [[[2]]] [[1]] [[1]]) /\
  CoupledQP.a2dr_constr_vio_val 1 [[[1]; [1]]] [[0; 5]] [[1]] [3] [[1]]
  = Ok (Spec.constraint_violation 1 [[[1]; [1]]] [[0; 5]] [[1]] [3] [[1]]) /\
  CoupledQP.report 1 [[[2]]] [[1]] [[[1]; [1]]] [[0; 5]] [[1]] [3] [[1]]
  = Ok [("Objective value:"%string,
         Spec.objective_value 1 [[[2]]] [[1]] [[1]]);
        ("Constraint violation:"%string,
         Spec.constraint_violation 1 [[[1]; [1]]] [[0; 5]] [[1]] [3] [[1]])].
Proof.
  destruct (report_objective_and_violation 1 [[[2]]] [[1]] [[[1]; [1]]]
              [[0; 5]] [[1]] [3] [[1]]) as [Hobj Hrest];
    try reflexivity; try lia.
  - intros l Hl. destruct l as [|l]; [|lia]. simpl.
    split; [split; [reflexivity | repeat constructor] | reflexivity].
  - split; [exact Hobj|]. apply Hrest.
    + intros l Hl. destruct l as [|l]; [|lia]. simpl.
      split; [repeat constructor | reflexivity].
    + repeat constructor.
    + reflexivity.
Defined.

(** On the data of the witness the first row is violated by [1], the
    second holds with room to spare and counts for nothing, and the
    equality misses by [2]: the violation is [sqrt 5]. *)
Lemma constraint_violation_clips :
  Spec.constraint_violation 1 [[[1]; [1]]] [[0; 5]] [[1]] [3] [[1]] = sqrt 5.
Proof.
  unfold Spec.constraint_violation, Spec.clipped_residual_sq,
    Spec.equality_residual_sq, Spec.coord, entry. simpl.
  rewrite (Rmax_left (0 + 1 * 1 - 0) 0) by lra.
  rewrite (Rmax_right (0 + 1 * 1 - 5) 0) by lra.
  f_equal. lra.
Qed.

(* ================================================================== *)
(** * Part III: further properties of the notebooks *)
(* ================================================================== *)

(** ** The covariance notebook: [alpha_max] and the sweep *)

Lemma alpha_max_ok (q : nat) (Q : mat) :
  has_shape q q Q -> (2 <= q)%nat ->
  exists a, Covariance.alpha_max Q = Ok a /\ Spec.max_abs_offdiag q Q a.
Proof.
  intros HQ Hq.
  destruct (max_spec (np.getitem_mask (np.abs2 Q) (Covariance.mask Q)))
    as [a [Ha [Hin Hub]]].
  { intros E.
    assert (Hin : In (Rabs (entry Q 0 1))
                     (np.getitem_mask (np.abs2 Q) (Covariance.mask Q))).
    { apply (In_offdiag q Q _ HQ). exists 0%nat, 1%nat.
      repeat split; auto; lia. }
    rewrite E in Hin. exact Hin. }
  exists a. split; [exact Ha|]. split.
  - now apply (In_offdiag q Q a HQ).
  - intros i j Hi Hj Hij. apply Hub, (In_offdiag q Q _ HQ). now exists i, j.
Qed.

Lemma alpha_max_small (q : nat) (Q : mat) :
  has_shape q q Q -> (q <= 1)%nat ->
  Covariance.alpha_max Q = Raise ValueError.
Proof.
  intros [Hr Hc] Hq. destruct Q as [|row [|row' Q]]; simpl in Hr.
  - reflexivity.
  - subst q. apply Forall_inv in Hc.
    destruct row as [|x [|y row]]; try discriminate. reflexivity.
  - lia.
Qed.

(** X1. [alpha_max] (and with it the sweep [alphas]) raises [ValueError]
    exactly when the square matrix [Q] has no off-diagonal entry, that is
    for [q <= 1]: the masked selection is then empty and [np.max] refuses
    it. *)
Theorem alpha_max_raises_iff (q : nat) (Q : mat) :
  has_shape q q Q ->
  ((q <= 1)%nat <-> Covariance.alpha_max Q = Raise ValueError) /\
  ((q <= 1)%nat <-> Covariance.alphas Q = Raise ValueError).
Proof.
  intros HQ.
  assert (Hiff : (q <= 1)%nat <-> Covariance.alpha_max Q = Raise ValueError).
  { split; [now apply alpha_max_small|].
    intros E. destruct (Nat.le_gt_cases q 1) as [H|H]; [exact H|].
    destruct (alpha_max_ok q Q HQ H) as [a [Ha _]]. congruence. }
  split; [exact Hiff|].
  rewrite Hiff. unfold Covariance.alphas.
  destruct (Covariance.alpha_max Q) as [a|e]; simpl.
  - split; discriminate.
  - split; intros H; injection H as ->; reflexivity.
Qed.

Lemma alpha_max_raises_iff_witness :
  ((1 <= 1)%nat <-> Covariance.alpha_max [[5]] = Raise ValueError) /\
  ((1 <= 1)%nat <-> Covariance.alphas [[5]] = Raise ValueError).
Proof.
  apply (alpha_max_raises_iff 1 [[5]]).
  split; [reflexivity | repeat constructor].
Defined.

Lemma In_compress_In {A : Type} (x : A) (m : list bool) (a : list A) :
  In x (np.compress m a) -> In x a.
Proof.
  intros H. apply In_compress in H as [j [_ Hj]].
  eapply nth_error_In; eauto.
Qed.

Lemma max_ok_In (v : vec) (a : R) :
  np.max v = Ok a -> In a v /\ forall y, In y v -> y <= a.
Proof.
  intros H. destruct v as [|x v]; [discriminate|].
  destruct (max_spec (x :: v)) as [m [Hm Hspec]]; [discriminate|].
  rewrite H in Hm. injection Hm as <-. exact Hspec.
Qed.

(** X2. Whatever the matrix, a value of [alpha_max] is non-negative, and
    the sweep it yields is [[a, 0.1*a, 0.01*a]] with
    [0 <= 0.01*a <= 0.1*a <= a]: the regularization weights are
    non-negative and are visited from the largest to the smallest. *)
Theorem alphas_nonneg_decreasing (Q : mat) (a : R) :
  Covariance.alpha_max Q = Ok a ->
  0 <= a /\
  Covariance.alphas Q = Ok [a; 0.1 * a; 0.01 * a] /\
  0 <= 0.01 * a <= 0.1 * a /\ 0.1 * a <= a.
Proof.
  intros Ha.
  assert (Hpos : 0 <= a).
  { unfold Covariance.alpha_max in Ha. apply max_ok_In in Ha as [Hin _].
    unfold np.getitem_mask, np.ravel in Hin. apply In_compress_In in Hin.
    apply in_concat in Hin as [row [Hrow Hin]].
    unfold np.abs2 in Hrow. apply in_map_iff in Hrow as [r [<- _]].
    unfold np.abs in Hin. apply in_map_iff in Hin as [y [<- _]].
    apply Rabs_pos. }
  split; [exact Hpos|]. split; [|lra].
  unfold Covariance.alphas. rewrite Ha. simpl. now rewrite Rmult_1_l.
Qed.

Lemma alphas_nonneg_decreasing_witness :
  0 <= fold_left Rmax [Rabs 3] (Rabs (-2)) /\
  Covariance.alphas [[1; -2]; [3; 4]]
  = Ok [fold_left Rmax [Rabs 3] (Rabs (-2));
        0.1 * fold_left Rmax [Rabs 3] (Rabs (-2));
        0.01 * fold_left Rmax [Rabs 3] (Rabs (-2))] /\
  0 <= 0.01 * fold_left Rmax [Rabs 3] (Rabs (-2))
    <= 0.1 * fold_left Rmax [Rabs 3] (Rabs (-2)) /\
  0.1 * fold_left Rmax [Rabs 3] (Rabs (-2))
  <= fold_left Rmax [Rabs 3] (Rabs (-2)).
Proof.
  apply (alphas_nonneg_decreasing [[1; -2]; [3; 4]]). reflexivity.
Defined.

(** X3. [alpha_max] never reads the diagonal: two [q]-by-[q] matrices that
    agree off the diagonal have the same [alpha_max] (the same value, or
    the same [ValueError]), hence the same sweep. *)
Theorem alpha_max_ignores_diagonal (q : nat) (Q Q' : mat) :
  has_shape q q Q -> has_shape q q Q' ->
  (forall i j, (i < q)%nat -> (j < q)%nat -> i <> j ->
               entry Q i j = entry Q' i j) ->
  Covariance.alpha_max Q = Covariance.alpha_max Q' /\
  Covariance.alphas Q = Covariance.alphas Q'.
Proof.
  intros HQ HQ' Hagree.
  assert (E : Covariance.alpha_max Q = Covariance.alpha_max Q').
  { destruct (Nat.le_gt_cases q 1) as [Hq|Hq].
    - now rewrite (alpha_max_small q Q HQ Hq), (alpha_max_small q Q' HQ' Hq).
    - destruct (alpha_max_ok q Q HQ Hq) as [a [Ha [[i [j [Hi [Hj [Hij Ea]]]]] Hub]]].
      destruct (alpha_max_ok q Q' HQ' Hq)
        as [a' [Ha' [[i' [j' [Hi' [Hj' [Hij' Ea']]]]] Hub']]].
      rewrite Ha, Ha'. f_equal. apply Rle_antisym.
      + rewrite Ea, (Hagree i j Hi Hj Hij). now apply Hub'.
      + rewrite Ea', <- (Hagree i' j' Hi' Hj' Hij'). now apply Hub. }
  split; [exact E|]. unfold Covariance.alphas. now rewrite E.
Qed.

Lemma alpha_max_ignores_diagonal_witness :
  Covariance.alpha_max [[1; -2]; [3; 4]] = Covariance.alpha_max [[7; -2]; [3; 9]]
  /\
  Covariance.alphas [[1; -2]; [3; 4]] = Covariance.alphas [[7; -2]; [3; 9]].
Proof.
  apply (alpha_max_ignores_diagonal 2 [[1; -2]; [3; 4]] [[7; -2]; [3; 9]]).
  - split; [reflexivity | repeat constructor].
  - split; [reflexivity | repeat constructor].
  - intros i j Hi Hj Hij.
    destruct i as [|[|i]], j as [|[|j]]; try lia; try reflexivity;
      contradiction.
Defined.

Lemma shape_square {A : Type} (q : nat) (Q : list (list A)) :
  has_shape q q Q -> np.shape Q = (q, q).
Proof.
  intros [Hr Hc]. unfold np.shape. destruct Q as [|row Q]; simpl in *.
  - now subst q.
  - apply Forall_inv in Hc. now rewrite Hr, Hc.
Qed.

Lemma compress_diag_length {A : Type} (i m k : nat) (r : list A) :
  length r = m ->
  length (np.compress
            (imap_from (fun j (x : bool) => if Nat.eqb i j then false else x)
                       k (repeat true m)) r)
  = (m - (if (k <=? i)%nat && (i <? k + m)%nat then 1 else 0))%nat.
Proof.
  revert k r; induction m as [|m IH]; intros k [|x r] Hr; simpl in *;
    try discriminate; auto.
  specialize (IH (S k) r ltac:(lia)).
  destruct (Nat.eqb_spec i k) as [->|Hik]; simpl; rewrite IH.
  - destruct (Nat.leb_spec (S k) k), (Nat.leb_spec k k),
      (Nat.ltb_spec k (k + S m)); simpl; lia.
  - destruct (Nat.leb_spec (S k) i), (Nat.leb_spec k i),
      (Nat.ltb_spec i (S k + m)), (Nat.ltb_spec i (k + S m)); simpl; lia.
Qed.

Lemma offdiag_rows_length {A : Type} (q m k : nat) (rows : list (list A)) :
  length rows = m -> Forall (fun row => length row = q) rows ->
  (k + m <= q)%nat ->
  length (concat
            (map2 (@np.compress A)
               (imap_from
                  (fun i row =>
                     imap (fun j (x : bool) => if Nat.eqb i j then false else x)
                          row)
                  k (repeat (repeat true q) m))
               rows))
  = (m * (q - 1))%nat.
Proof.
  revert k rows; induction m as [|m IH]; intros k [|r rows] Hlen Hrows Hk;
    simpl in *; try discriminate; auto.
  rewrite length_app, (IH (S k) rows) by (try lia; now inversion Hrows).
  unfold imap. rewrite (compress_diag_length k q 0 r) by now inversion Hrows.
  destruct (Nat.leb_spec 0 k), (Nat.ltb_spec k (0 + q)); simpl; lia.
Qed.

Lemma mask_rows_agree (q : nat) (Q : mat) :
  has_shape q q Q ->
  Forall2 (fun (m : list bool) (a : list R) => length m = length a)
          (Covariance.mask Q) (np.abs2 Q).
Proof.
  intros HQ. pose proof HQ as [Hr Hc]. apply Forall2_nth_error.
  - unfold np.abs2. now rewrite (mask_length q Q HQ), length_map.
  - intros i m row Hm Hrow.
    assert (Hi : (i < q)%nat).
    { rewrite <- (mask_length q Q HQ). apply nth_error_Some. congruence. }
    rewrite (mask_row q Q i HQ Hi) in Hm. injection Hm as <-.
    unfold np.abs2 in Hrow.
    apply nth_error_map_inv in Hrow as [r [Er ->]].
    unfold imap, np.abs.
    rewrite imap_from_length, repeat_length, length_map.
    symmetry. eapply shape_row; eauto.
Qed.

(** X4. The mask built by [np.ones] and [np.fill_diagonal] selects exactly
    the [q*(q-1)] off-diagonal entries of a [q]-by-[q] matrix: [np.max] is
    taken over that many values. *)
Theorem offdiag_selection_count (q : nat) (Q : mat) :
  has_shape q q Q ->
  length (np.getitem_mask (np.abs2 Q) (Covariance.mask Q))
  = (q * (q - 1))%nat.
Proof.
  intros HQ. unfold np.getitem_mask, np.ravel.
  rewrite (compress_concat _ _ (mask_rows_agree q Q HQ)).
  unfold Covariance.mask, np.fill_diagonal, np.ones_bool, imap at 1.
  rewrite (shape_square q Q HQ). simpl fst. simpl snd.
  apply offdiag_rows_length; [| |lia].
  - unfold np.abs2. rewrite length_map. apply HQ.
  - unfold np.abs2, np.abs. apply Forall_map.
    destruct HQ as [_ Hc]. eapply Forall_impl; [|exact Hc].
    intros row Hrow. simpl. now rewrite length_map.
Qed.

Lemma offdiag_selection_count_witness :
  length (np.getitem_mask (np.abs2 [[1; -2]; [3; 4]])
                          (Covariance.mask [[1; -2]; [3; 4]]))
  = (2 * (2 - 1))%nat.
Proof.
  apply (offdiag_selection_count 2 [[1; -2]; [3; 4]]).
  split; [reflexivity | repeat constructor].
Defined.

(** ** The covariance notebook: the first proximal operator *)

(** X5. The first operator of [prox_list] maps [R^(q*q)] to [R^(q*q)]: a
    point of any other length is refused with [ValueError] whatever the
    proximal library does; on a point of length [q*q], when the library
    returns a [q]-by-[q] matrix [S] the operator returns the flattening of
    [S], of the length of the point, which reshapes back to [S]; and an
    exception of the library passes through. *)
Theorem first_prox_operator_shape (q : nat) (Q : mat)
  (prox_neg_log_det : mat -> R -> mat -> py mat)
  (prox_norm1 : vec -> R -> py vec) (alpha : R) (v : vec) (t : R) :
  exists op : prox_op vec,
    nth_error (Covariance.prox_list q Q prox_neg_log_det prox_norm1 alpha) 0
    = Some op /\
    (length v <> (q * q)%nat -> op v t = Raise ValueError) /\
    (length v = (q * q)%nat ->
     forall S,
       prox_neg_log_det (np.rows_of q q v) t (np.mul_scalar2 t Q) = Ok S ->
       has_shape q q S ->
       exists w, op v t = Ok w /\ length w = length v /\
                 np.reshape w q q = Ok S) /\
    (length v = (q * q)%nat ->
     forall e,
       prox_neg_log_det (np.rows_of q q v) t (np.mul_scalar2 t Q) = Raise e ->
       op v t = Raise e).
Proof.
  eexists. split; [reflexivity|]. unfold np.reshape.
  split; [|split].
  - intros Hv. destruct (Nat.eqb_spec (length v) (q * q)); [contradiction|].
    reflexivity.
  - intros Hv S HS Hshape. rewrite Hv, Nat.eqb_refl. simpl. rewrite HS. simpl.
    exists (np.ravel S). split; [reflexivity|]. split.
    + now rewrite (ravel_length q q S Hshape).
    + rewrite (ravel_length q q S Hshape), Nat.eqb_refl.
      now rewrite rows_of_ravel.
  - intros Hv e He. rewrite Hv, Nat.eqb_refl. simpl. now rewrite He.
Qed.

(** ** The covariance notebook: thresholding *)

Lemma zero_snap_range (x : R) :
  Spec.zero_snap x = 0 \/ 1e-4 < Rabs (Spec.zero_snap x).
Proof.
  destruct (Rle_dec (Rabs x) 1e-4) as [H|H].
  - left. now apply zero_snap_small.
  - right. rewrite zero_snap_large; lra.
Qed.

Lemma zero_snap_fixed (x : R) :
  Spec.zero_snap x = x <-> (x = 0 \/ 1e-4 < Rabs x).
Proof.
  split.
  - intros E. rewrite <- E. apply zero_snap_range.
  - intros [->|H].
    + apply zero_snap_small. rewrite Rabs_R0. lra.
    + now apply zero_snap_large.
Qed.

Lemma map_fixed_iff {A : Type} (f : A -> A) (l : list A) :
  map f l = l <-> Forall (fun x => f x = x) l.
Proof.
  induction l as [|a l IH]; simpl.
  - split; auto.
  - split.
    + intros E. injection E as E1 E2. constructor; [exact E1 | now apply IH].
    + intros H. inversion H; subst. f_equal; [assumption | now apply IH].
Qed.

(** X6. After the threshold no entry lies in the band [0 < |x| <= 1e-4]:
    every entry of the result is exactly [0] or larger than [1e-4] in
    magnitude. The shape is kept, and the matrices the threshold leaves
    unchanged are exactly those without an entry in that band. *)
Theorem threshold_clears_band (S : mat) :
  (forall r c, has_shape r c S -> has_shape r c (Covariance.threshold S)) /\
  Forall (Forall (fun x => x = 0 \/ 1e-4 < Rabs x)) (Covariance.threshold S) /\
  (Covariance.threshold S = S <->
   Forall (Forall (fun x => x = 0 \/ 1e-4 < Rabs x)) S).
Proof.
  rewrite threshold_entrywise. split; [|split].
  - intros r c [Hr Hc]. split; [now rewrite length_map|].
    apply Forall_map. eapply Forall_impl; [|exact Hc].
    intros row Hrow. simpl. now rewrite length_map.
  - apply Forall_map, Forall_forall. intros row _.
    apply Forall_map, Forall_forall. intros x _. apply zero_snap_range.
  - rewrite map_fixed_iff. split; intros H.
    + eapply Forall_impl; [|exact H]. intros row Hrow. simpl in Hrow.
      apply map_fixed_iff in Hrow. eapply Forall_impl; [|exact Hrow].
      intros x Hx. now apply zero_snap_fixed.
    + eapply Forall_impl; [|exact H]. intros row Hrow. simpl.
      apply map_fixed_iff. eapply Forall_impl; [|exact Hrow].
      intros x Hx. now apply zero_snap_fixed.
Qed.

Lemma entry_map_map (f : R -> R) (r c : nat) (S : mat) (i j : nat) :
  has_shape r c S -> (i < r)%nat -> (j < c)%nat ->
  entry (map (map f) S) i j = f (entry S i j).
Proof.
  intros HS Hi Hj. unfold entry.
  rewrite row_map by (destruct HS; lia).
  fold (Spec.coord (map f (nth i S [])) j).
  rewrite coord_map by (rewrite (row_length r c S i HS Hi); lia).
  reflexivity.
Qed.

(** X7. The threshold keeps symmetry: a symmetric [q]-by-[q] matrix stays
    symmetric, entry [(i, j)] of the result being the zero-snap of entry
    [(i, j)]. *)
Theorem threshold_keeps_symmetry (q : nat) (S : mat) :
  has_shape q q S -> Spec.symmetric q S ->
  Spec.symmetric q (Covariance.threshold S) /\
  (forall i j, (i < q)%nat -> (j < q)%nat ->
     entry (Covariance.threshold S) i j = Spec.zero_snap (entry S i j)).
Proof.
  intros HS Hsym. rewrite threshold_entrywise. split.
  - intros i j Hi Hj.
    rewrite !(entry_map_map _ q q S) by assumption.
    now rewrite (Hsym i j Hi Hj).
  - intros i j Hi Hj. now apply (entry_map_map _ q q S).
Qed.

Lemma threshold_keeps_symmetry_witness :
  Spec.symmetric 2 (Covariance.threshold [[1; 5e-5]; [5e-5; 3]]) /\
  (forall i j, (i < 2)%nat -> (j < 2)%nat ->
     entry (Covariance.threshold [[1; 5e-5]; [5e-5; 3]]) i j
     = Spec.zero_snap (entry [[1; 5e-5]; [5e-5; 3]] i j)).
Proof.
  apply (threshold_keeps_symmetry 2 [[1; 5e-5]; [5e-5; 3]]).
  - split; [reflexivity | repeat constructor].
  - intros i j Hi Hj.
    destruct i as [|[|i]], j as [|[|j]]; try lia; reflexivity.
Defined.

(** ** The covariance notebook: the post-processor and the loop *)

Lemma list_last_cases {A : Type} (l : list A) :
  l = [] \/ exists xs x, l = xs ++ [x].
Proof.
  destruct (rev l) as [|x xs] eqn:E.
  - left. apply (f_equal (@rev A)) in E. now rewrite rev_involutive in E.
  - right. exists (rev xs), x.
    apply (f_equal (@rev A)) in E. now rewrite rev_involutive in E.
Qed.

Lemma post_process_empty (q : nat) (Ss : list nd.ndarray) (h : nd.heap) :
  Covariance.post_process q {| Covariance.x_vals := [] |} Ss h
  = Raise IndexError.
Proof. reflexivity. Qed.

Lemma post_process_bad_size (q : nat) (xs : list nd.ndarray)
  (x_last : nd.ndarray) (Ss : list nd.ndarray) (h : nd.heap) :
  nd.size x_last <> (q * q)%nat ->
  Covariance.post_process q {| Covariance.x_vals := xs ++ [x_last] |} Ss h
  = Raise ValueError.
Proof.
  intros Hsize. unfold Covariance.post_process. simpl.
  rewrite index_last_app. simpl. unfold nd.reshape.
  destruct (Nat.eqb_spec (nd.size x_last) (q * q)); [contradiction|].
  reflexivity.
Qed.

Lemma post_process_ok_inv (q : nat) (result : Covariance.a2dr_result)
  (Ss Ss1 : list nd.ndarray) (h h1 : nd.heap) :
  Covariance.post_process q result Ss h = Ok (Ss1, h1) ->
  exists xs x_last,
    Covariance.x_vals result = xs ++ [x_last] /\
    nd.size x_last = (q * q)%nat /\
    Ss1 = Ss ++ [{| nd.base := nd.base x_last; nd.shape := [q; q] |}] /\
    h1 = nd.write (nd.base x_last)
                  (map Spec.zero_snap (h (nd.base x_last))) h.
Proof.
  destruct result as [xv]. simpl.
  destruct (list_last_cases xv) as [->|[xs [x ->]]].
  - rewrite post_process_empty. discriminate.
  - destruct (Nat.eq_dec (nd.size x) (q * q)) as [E|E].
    + rewrite (post_process_eq q xs x Ss h E). intros H. injection H as <- <-.
      exists xs, x. auto.
    + rewrite (post_process_bad_size q xs x Ss h E). discriminate.
Qed.

(** X9. Running the post-processor again on the same result changes no
    buffer: the second pass succeeds, appends the same view once more, and
    leaves the heap as the first pass left it. *)
Theorem post_process_rerun (q : nat) (result : Covariance.a2dr_result)
  (Ss Ss1 : list nd.ndarray) (h h1 : nd.heap) :
  Covariance.post_process q result Ss h = Ok (Ss1, h1) ->
  exists (S_thres : nd.ndarray) (h2 : nd.heap),
    Ss1 = Ss ++ [S_thres] /\
    Covariance.post_process q result Ss1 h1 = Ok (Ss1 ++ [S_thres], h2) /\
    (forall p, h2 p = h1 p).
Proof.
  intros H. apply post_process_ok_inv in H as [xs [x [Hx [Hsize [-> ->]]]]].
  destruct result as [xv]. simpl in Hx. subst xv.
  eexists; eexists. split; [reflexivity|]. split.
  - now apply post_process_eq.
  - intros p. rewrite write_same.
    destruct (Nat.eq_dec p (nd.base x)) as [->|Hp].
    + rewrite !write_same, map_map. apply map_ext. exact zero_snap_idem.
    + now rewrite !write_other by exact Hp.
Qed.

Lemma post_process_rerun_witness :
  exists (S_thres : nd.ndarray) (h2 : nd.heap),
    [{| nd.base := 1%nat; nd.shape := [1%nat; 1%nat] |}] = [] ++ [S_thres] /\
    Covariance.post_process 1
      {| Covariance.x_vals := [{| nd.base := 1%nat; nd.shape := [1%nat] |}] |}
      [{| nd.base := 1%nat; nd.shape := [1%nat; 1%nat] |}]
      (Covariance.threshold_inplace
         {| nd.base := 1%nat; nd.shape := [1%nat; 1%nat] |}
         (fun _ => [5e-5]))
    = Ok ([{| nd.base := 1%nat; nd.shape := [1%nat; 1%nat] |}] ++ [S_thres],
          h2) /\
    (forall p,
       h2 p = Covariance.threshold_inplace
                {| nd.base := 1%nat; nd.shape := [1%nat; 1%nat] |}
                (fun _ => [5e-5]) p).
Proof.
  apply (post_process_rerun 1
           {| Covariance.x_vals := [{| nd.base := 1%nat; nd.shape := [1%nat] |}] |}
           [] _ (fun _ => [5e-5])).
  reflexivity.
Defined.

(** X10. The loop over [alphas] keeps every matrix it has stored and adds
    one per [alpha]: when the sweep returns, the list [Ss] has grown by as
    many [q]-by-[q] array objects as there are values of [alpha], the
    earlier ones still in front and in order. *)
Theorem sweep_appends_one_per_alpha (q : nat) (Q : mat)
  (prox_neg_log_det : mat -> R -> mat -> py mat)
  (prox_norm1 : vec -> R -> py vec)
  (a2dr : list (prox_op vec) -> list mat -> vec -> nd.heap ->
          py (Covariance.a2dr_result * nd.heap))
  (alphas : vec) (Ss Ss' : list nd.ndarray) (h h' : nd.heap) :
  Covariance.sweep q Q prox_neg_log_det prox_norm1 a2dr alphas Ss h
  = Ok (Ss', h') ->
  exists new : list nd.ndarray,
    Ss' = Ss ++ new /\ length new = length alphas /\
    Forall (fun S => nd.shape S = [q; q]) new.
Proof.
  revert Ss h. induction alphas as [|alpha rest IH]; intros Ss h H.
  - simpl in H. injection H as <- <-. exists []. rewrite app_nil_r. auto.
  - simpl in H. unfold Covariance.solve_for in H.
    destruct (a2dr _ _ _ h) as [[result h1]|e]; [|discriminate]. simpl in H.
    destruct (Covariance.post_process q result Ss h1) as [[Ss1 h2]|e] eqn:Hp;
      [|discriminate]. simpl in H.
    apply post_process_ok_inv in Hp as [xs [x [_ [_ [-> _]]]]].
    apply IH in H as [new [-> [Hlen Hall]]].
    exists ({| nd.base := nd.base x; nd.shape := [q; q] |} :: new).
    split; [now rewrite <- app_assoc|]. split; [simpl; lia|].
    constructor; [reflexivity | exact Hall].
Qed.

Lemma sweep_appends_one_per_alpha_witness :
  exists new : list nd.ndarray,
    [{| nd.base := 0%nat; nd.shape := [1%nat; 1%nat] |};
     {| nd.base := 0%nat; nd.shape := [1%nat; 1%nat] |}] = [] ++ new /\
    length new = length [1; 0.1] /\
    Forall (fun S => nd.shape S = [1%nat; 1%nat]) new.
Proof.
  apply (sweep_appends_one_per_alpha 1 [[1]]
           (fun _ _ _ => Raise ValueError) (fun _ _ => Raise ValueError)
           (fun _ _ _ h =>
              Ok ({| Covariance.x_vals :=
                       [{| nd.base := 0%nat; nd.shape := [1%nat] |}] |}, h))
           [1; 0.1] []
           [{| nd.base := 0%nat; nd.shape := [1%nat; 1%nat] |};
            {| nd.base := 0%nat; nd.shape := [1%nat; 1%nat] |}]
           (fun _ => [1])
           (Covariance.threshold_inplace
              {| nd.base := 0%nat; nd.shape := [1%nat; 1%nat] |}
              (Covariance.threshold_inplace
                 {| nd.base := 0%nat; nd.shape := [1%nat; 1%nat] |}
                 (fun _ => [1])))).
  reflexivity.
Defined.

(** ** The coupled QP: indexing errors *)

Lemma index_cases {A : Type} (l : list A) (i : nat) :
  ((i < length l)%nat /\ exists a, index l i = Ok a) \/
  ((length l <= i)%nat /\ index l i = Raise IndexError).
Proof.
  unfold index. destruct (nth_error l i) as [a|] eqn:E.
  - left. split; [apply nth_error_Some; congruence | now exists a].
  - right. split; [now apply nth_error_None | reflexivity].
Qed.

(** X11. Building [prox_list] never fails, the lists are read when an
    operator is called: if one of the four lists has no entry [l], the
    operator at position [l] raises [IndexError] on every call, before the
    backend is reached. *)
Theorem prox_list_out_of_range (OSQP : cvx.backend) (L : nat)
  (Q_list : list mat) (c_list : list vec) (F_list : list mat)
  (d_list : list vec) (l : nat) :
  (l < L)%nat ->
  (length Q_list <= l \/ length c_list <= l \/
   length F_list <= l \/ length d_list <= l)%nat ->
  exists op : prox_op (option vec),
    nth_error (CoupledQP.prox_list OSQP L Q_list c_list F_list d_list) l
    = Some op /\
    forall v t, op v t = Raise IndexError.
Proof.
  intros Hl Hshort. eexists. split.
  - unfold CoupledQP.prox_list.
    rewrite nth_error_map, (nth_error_range L l Hl). reflexivity.
  - intros v t. unfold CoupledQP.prox_qp_wrapper.
    destruct (index_cases Q_list l) as [[HQ [Q ->]]|[_ ->]]; [|reflexivity].
    destruct (index_cases c_list l) as [[Hc [c ->]]|[_ ->]]; [|reflexivity].
    destruct (index_cases F_list l) as [[HF [F ->]]|[_ ->]]; [|reflexivity].
    destruct (index_cases d_list l) as [[Hd [d ->]]|[_ ->]]; [|reflexivity].
    lia.
Qed.

Lemma prox_list_out_of_range_witness :
  exists op : prox_op (option vec),
    nth_error (CoupledQP.prox_list (fun _ => cvx.optimal [0]) 2
                 [[[1]]; [[2]]] [[3]; [4]] [[[5]]; [[6]]] [[7]]) 1
    = Some op /\
    forall v t, op v t = Raise IndexError.
Proof.
  apply (prox_list_out_of_range (fun _ => cvx.optimal [0]) 2
           [[[1]]; [[2]]] [[3]; [4]] [[[5]]; [[6]]] [[7]] 1).
  - lia.
  - simpl. lia.
Defined.

Lemma mapM_raise {A B : Type} (f : A -> py B) (e : exn) (l : list A) :
  (forall a, In a l -> f a = Raise e \/ exists b, f a = Ok b) ->
  (exists a, In a l /\ f a = Raise e) ->
  mapM f l = Raise e.
Proof.
  induction l as [|a l IH]; intros Hall [a0 [Hin Hraise]]; [contradiction|].
  simpl. destruct (Hall a (or_introl eq_refl)) as [->|[b Hb]]; [reflexivity|].
  rewrite Hb. simpl.
  destruct Hin as [<-|Hin]; [congruence|].
  rewrite IH; [reflexivity | intros; apply Hall; now right | now exists a0].
Qed.

(** X12. When the solver hands back fewer than [L] solution vectors and
    the blocks that are there are well-shaped, the objective, the
    violation and the report all raise [IndexError]. *)
Theorem report_too_few_solutions (L : nat) (Q_list : list mat)
  (c_list : list vec) (F_list : list mat) (d_list : list vec) (G : mat)
  (h : vec) (a2dr_x : list vec) :
  (length a2dr_x < L)%nat ->
  (forall l x Q, nth_error a2dr_x l = Some x -> nth_error Q_list l = Some Q ->
                 has_shape (length x) (length x) Q) ->
  (forall l x c, nth_error a2dr_x l = Some x -> nth_error c_list l = Some c ->
                 length c = length x) ->
  (forall l x F, nth_error a2dr_x l = Some x -> nth_error F_list l = Some F ->
                 Forall (fun row : vec => length row = length x) F) ->
  (forall l F d, nth_error F_list l = Some F -> nth_error d_list l = Some d ->
                 length d = length F) ->
  CoupledQP.a2dr_obj L Q_list c_list a2dr_x = Raise IndexError /\
  CoupledQP.a2dr_constr_vio_val L F_list d_list G h a2dr_x
  = Raise IndexError /\
  CoupledQP.report L Q_list c_list F_list d_list G h a2dr_x
  = Raise IndexError.
Proof.
  intros Hshort _ _ _ _.
  assert (Hin : In (length a2dr_x) (range L))
    by (unfold range; apply in_seq; lia).
  assert (Hobj : CoupledQP.a2dr_obj L Q_list c_list a2dr_x
                 = Raise IndexError).
  { unfold CoupledQP.a2dr_obj. rewrite (mapM_raise _ IndexError);
      [reflexivity| |].
    - intros l _.
      destruct (index_cases a2dr_x l) as [[_ [x ->]]|[_ ->]]; [|now left].
      destruct (index_cases Q_list l) as [[_ [Q ->]]|[_ ->]]; [|now left].
      destruct (index_cases c_list l) as [[_ [c ->]]|[_ ->]]; [|now left].
      right. eexists. reflexivity.
    - exists (length a2dr_x). split; [exact Hin|].
      destruct (index_cases a2dr_x (length a2dr_x)) as [[H _]|[_ ->]];
        [lia | reflexivity]. }
  assert (Hvio : CoupledQP.a2dr_constr_vio_val L F_list d_list G h a2dr_x
                 = Raise IndexError).
  { unfold CoupledQP.a2dr_constr_vio_val, CoupledQP.a2dr_constr_vio.
    rewrite (mapM_raise _ IndexError); [reflexivity| |].
    - intros l _.
      destruct (index_cases F_list l) as [[_ [F ->]]|[_ ->]]; [|now left].
      destruct (index_cases a2dr_x l) as [[_ [x ->]]|[_ ->]]; [|now left].
      destruct (index_cases d_list l) as [[_ [d ->]]|[_ ->]]; [|now left].
      right. eexists. reflexivity.
    - exists (length a2dr_x). split; [exact Hin|].
      destruct (index_cases F_list (length a2dr_x)) as [[_ [F ->]]|[_ ->]];
        [|reflexivity].
      destruct (index_cases a2dr_x (length a2dr_x)) as [[H _]|[_ ->]];
        [lia | reflexivity]. }
  split; [exact Hobj|]. split; [exact Hvio|].
  unfold CoupledQP.report. now rewrite Hobj.
Qed.

Lemma report_too_few_solutions_witness :
  CoupledQP.a2dr_obj 2 [[[2]]; [[1]]] [[1]; [0]] [[1]] = Raise IndexError /\
  CoupledQP.a2dr_constr_vio_val 2 [[[1]]; [[1]]] [[0]; [0]] [[1; 1]] [3] [[1]]
  = Raise IndexError /\
  CoupledQP.report 2 [[[2]]; [[1]]] [[1]; [0]] [[[1]]; [[1]]] [[0]; [0]]
                   [[1; 1]] [3] [[1]]
  = Raise IndexError.
Proof.
  apply (report_too_few_solutions 2 [[[2]]; [[1]]] [[1]; [0]] [[[1]]; [[1]]]
           [[0]; [0]] [[1; 1]] [3] [[1]]).
  - simpl. lia.
  - intros l x Q Hx HQ. destruct l as [|[|l]]; simpl in Hx, HQ;
      try discriminate.
    injection Hx as <-. injection HQ as <-.
    split; [reflexivity | repeat constructor].
  - intros l x c Hx Hc. destruct l as [|[|l]]; simpl in Hx, Hc;
      try discriminate.
    injection Hx as <-. injection Hc as <-. reflexivity.
  - intros l x F Hx HF. destruct l as [|[|l]]; simpl in Hx, HF;
      try discriminate.
    injection Hx as <-. injection HF as <-. repeat constructor.
  - intros l F d HF Hd. destruct l as [|[|l]]; simpl in HF, Hd.
    + injection HF as <-. injection Hd as <-. reflexivity.
    + injection HF as <-. injection Hd as <-. reflexivity.
    + destruct l; discriminate.
Defined.

(** ** The coupled QP: what a zero violation means *)

Lemma normsq_nonneg (v : vec) : 0 <= Spec.normsq v.
Proof. rewrite <- normsq_dot. apply dot_self_nonneg. Qed.

Lemma normsq_zero_iff (v : vec) :
  Spec.normsq v = 0 <-> v = np.zeros (length v).
Proof.
  rewrite <- normsq_dot. split; [apply dot_self_zero|].
  intros ->. apply dot_zeros_l.
Qed.

Lemma maximum_zero_iff (w : vec) :
  np.maximum w 0 = np.zeros (length w) <-> Forall (fun x => x <= 0) w.
Proof.
  unfold np.maximum, np.zeros. induction w as [|a w IH]; simpl.
  - split; auto.
  - split.
    + intros E. injection E as E1 E2. constructor; [|now apply IH].
      unfold Rmax in E1. destruct (Rle_dec a 0); lra.
    + intros H. inversion H as [|? ? Ha Hw]; subst. f_equal; [|now apply IH].
      now apply Rmax_right.
Qed.

Lemma sub_nonpos_iff (u d : vec) :
  length u = length d ->
  (Forall (fun x => x <= 0) (np.sub u d) <-> Forall2 Rle u d).
Proof.
  unfold np.sub. revert d; induction u as [|a u IH]; intros [|b d] H;
    simpl in *; try discriminate.
  - split; constructor.
  - specialize (IH d ltac:(lia)). split; intros H'.
    + inversion H'; subst. constructor; [lra | now apply IH].
    + inversion H'; subst. constructor; [lra | now apply IH].
Qed.

Lemma sub_zeros_iff (g h : vec) :
  length g = length h -> (np.sub g h = np.zeros (length g) <-> g = h).
Proof.
  intros Hlen. split; [now apply sub_zeros_eq|].
  intros <-. unfold np.sub, np.zeros.
  induction g as [|a g IH]; simpl; auto.
  rewrite IH by reflexivity. f_equal. lra.
Qed.

Lemma sum_n_zero_iff (n : nat) (f : nat -> R) :
  (forall i, (i < n)%nat -> 0 <= f i) ->
  (Spec.sum_n n f = 0 <-> forall i, (i < n)%nat -> f i = 0).
Proof.
  induction n as [|n IH]; intros Hpos; simpl.
  - split; [intros _ i Hi; lia | reflexivity].
  - assert (H1 : 0 <= Spec.sum_n n f)
      by (apply sum_n_nonneg; intros; apply Hpos; lia).
    assert (H2 : 0 <= f n) by (apply Hpos; lia).
    specialize (IH ltac:(intros; apply Hpos; lia)). split.
    + intros E i Hi. destruct (Nat.eq_dec i n) as [->|Hne]; [lra|].
      apply IH; [lra | lia].
    + intros Hall. rewrite (proj2 IH) by (intros; apply Hall; lia).
      rewrite Hall by lia. lra.
Qed.

Lemma constraint_violation_zero_iff (L : nat) (Fs : list mat)
  (ds : list vec) (G : mat) (h : vec) (xs : list vec) :
  (forall l, (l < L)%nat -> length (nth l Fs []) = length (nth l ds [])) ->
  length G = length h ->
  0 <= Report.violation_value L Fs ds G h xs /\
  (Report.violation_value L Fs ds G h xs = 0 <->
   (forall l, (l < L)%nat ->
      Forall2 Rle (np.matvec (nth l Fs []) (nth l xs [])) (nth l ds [])) /\
   np.matvec G (concat xs) = h).
Proof.
  intros Hrows HG. unfold Report.violation_value.
  set (A := Spec.sum_n L _). set (B := Spec.normsq _).
  assert (HA : 0 <= A) by (apply sum_n_nonneg; intros; apply normsq_nonneg).
  assert (HB : 0 <= B) by apply normsq_nonneg.
  split; [apply sqrt_pos|].
  assert (Hsub : forall l, (l < L)%nat ->
            length (np.matvec (nth l Fs []) (nth l xs []))
            = length (nth l ds []))
    by (intros l Hl; rewrite matvec_length; now apply Hrows).
  assert (HGh : length (np.matvec G (concat xs)) = length h)
    by now rewrite matvec_length.
  assert (EA : A = 0 <->
            forall l, (l < L)%nat ->
              Forall2 Rle (np.matvec (nth l Fs []) (nth l xs []))
                      (nth l ds [])).
  { unfold A. rewrite sum_n_zero_iff by (intros; apply normsq_nonneg).
    split; intros H l Hl; specialize (H l Hl).
    - apply normsq_zero_iff in H. rewrite maximum_length in H.
      apply maximum_zero_iff in H. now apply sub_nonpos_iff in H; [|apply Hsub].
    - apply normsq_zero_iff. rewrite maximum_length.
      apply maximum_zero_iff. now apply sub_nonpos_iff; [apply Hsub|]. }
  assert (EB : B = 0 <-> np.matvec G (concat xs) = h).
  { unfold B. rewrite normsq_zero_iff, sub_length by exact HGh.
    now apply sub_zeros_iff. }
  rewrite <- EA, <- EB. split.
  - intros E. apply sqrt_eq_0 in E; lra.
  - intros [-> ->]. rewrite Rplus_0_r. apply sqrt_0.
Qed.

(** X13. For well-shaped data the reported constraint violation is never
    negative, and it is exactly [0] when, and only when, the returned
    solution satisfies every block inequality [F_l x_l <= d_l] and the
    coupling equality [G x = h]. *)
Theorem violation_zero_iff_feasible (L : nat) (F_list : list mat)
  (d_list : list vec) (G : mat) (h : vec) (a2dr_x : list vec) :
  (1 <= L)%nat ->
  length a2dr_x = L -> length F_list = L -> length d_list = L ->
  (forall l, (l < L)%nat ->
     Forall (fun row : vec => length row = length (nth l a2dr_x []))
            (nth l F_list [])) ->
  Forall (fun row : vec => length row = length (concat a2dr_x)) G ->
  (forall l, (l < L)%nat ->
     length (nth l F_list []) = length (nth l d_list [])) ->
  length G = length h ->
  exists r : R,
    CoupledQP.a2dr_constr_vio_val L F_list d_list G h a2dr_x = Ok r /\
    0 <= r /\
    (r = 0 <->
     (forall l, (l < L)%nat ->
        Forall2 Rle (np.matvec (nth l F_list []) (nth l a2dr_x []))
                (nth l d_list [])) /\
     np.matvec G (concat a2dr_x) = h).
Proof.
  intros HL Hx HF Hd _ _ Hrows HG.
  exists (Report.violation_value L F_list d_list G h a2dr_x).
  split; [now apply constr_vio_val_eq|].
  now apply constraint_violation_zero_iff.
Qed.

Lemma violation_zero_iff_feasible_witness :
  exists r : R,
    CoupledQP.a2dr_constr_vio_val 1 [[[1]]] [[0]] [[1]] [3] [[1]] = Ok r /\
    0 <= r /\
    (r = 0 <->
     (forall l, (l < 1)%nat ->
        Forall2 Rle (np.matvec (nth l [[[1]]] []) (nth l [[1]] []))
                (nth l [[0]] [])) /\
     np.matvec [[1]] (concat [[1]]) = [3]).
Proof.
  apply (violation_zero_iff_feasible 1 [[[1]]] [[0]] [[1]] [3] [[1]]);
    try reflexivity; try lia.
  - intros l Hl. destruct l as [|l]; [repeat constructor | lia].
  - repeat constructor.
  - intros l Hl. destruct l as [|l]; [reflexivity | lia].
Defined.

Lemma Forall2_Rle_add_scalar (u : vec) (s : R) :
  0 <= s -> Forall2 Rle u (np.add_scalar u s).
Proof.
  intros Hs. unfold np.add_scalar.
  induction u as [|a u IH]; simpl; constructor; auto. lra.
Qed.

(** X14. On well-shaped generated data the generated point is reported
    clean: with [d_list], [G] and [h] as the data cell builds them, the
    violation the post-processor computes for [z_tld_list] is exactly
    [0]. *)
Theorem generated_point_zero_violation (L s : nat) (F_list G_list : list mat)
  (z_tld_list : list vec) :
  (1 <= L)%nat ->
  length F_list = L -> length G_list = L -> length z_tld_list = L ->
  Forall2 (fun (F : mat) (z : vec) =>
             Forall (fun row : vec => length row = length z) F)
          F_list z_tld_list ->
  Forall2 (fun (G : mat) (z : vec) =>
             Forall (fun row : vec => length row = length z) G)
          G_list z_tld_list ->
  Forall (fun G : mat => length G = s) G_list ->
  exists (ds : list vec) (Gm : mat) (hv : vec),
    CoupledQP.d_list L F_list z_tld_list = Ok ds /\
    CoupledQP.G G_list = Ok Gm /\
    CoupledQP.h G_list z_tld_list = Ok hv /\
    CoupledQP.a2dr_constr_vio_val L F_list ds Gm hv z_tld_list = Ok 0.
Proof.
  intros HL HF HG Hz _ _ Hrows.
  set (ds := map (fun l => np.add_scalar
                             (np.matvec (nth l F_list []) (nth l z_tld_list []))
                             0.1) (range L)).
  assert (Hds : CoupledQP.d_list L F_list z_tld_list = Ok ds).
  { unfold CoupledQP.d_list. apply mapM_range_ok. intros i Hi.
    rewrite (index_nth F_list i []), (index_nth z_tld_list i []) by lia.
    reflexivity. }
  assert (HGm : CoupledQP.G G_list = Ok (np.hstack_rows G_list s)).
  { unfold CoupledQP.G. destruct G_list as [|G Gs]; [simpl in HG; lia|].
    now apply hstack_ok. }
  exists ds, (np.hstack_rows G_list s),
    (np.matvec (np.hstack_rows G_list s) (concat z_tld_list)).
  split; [exact Hds|]. split; [exact HGm|]. split.
  - unfold CoupledQP.h. rewrite HGm. unfold CoupledQP.z_tld.
    rewrite hstack1_ok by (destruct z_tld_list; simpl in *; [lia|congruence]).
    reflexivity.
  - assert (Hlen : length ds = L)
      by (unfold ds, range; now rewrite length_map, length_seq).
    rewrite constr_vio_val_eq by assumption. f_equal.
    assert (Hnth : forall l, (l < L)%nat ->
              nth l ds [] = np.add_scalar
                              (np.matvec (nth l F_list []) (nth l z_tld_list []))
                              0.1).
    { intros l Hl. apply nth_error_nth. unfold ds.
      erewrite map_nth_error; [reflexivity | now apply nth_error_range]. }
    apply constraint_violation_zero_iff.
    + intros l Hl. rewrite (Hnth l Hl). unfold np.add_scalar.
      now rewrite length_map, matvec_length.
    + now rewrite matvec_length.
    + split; [|reflexivity]. intros l Hl. rewrite (Hnth l Hl).
      apply Forall2_Rle_add_scalar. lra.
Qed.

Lemma generated_point_zero_violation_witness :
  exists (ds : list vec) (Gm : mat) (hv : vec),
    CoupledQP.d_list 2 [[[1; 2]]; [[3]]] [[1; 1]; [2]] = Ok ds /\
    CoupledQP.G [[[1; 0]]; [[5]]] = Ok Gm /\
    CoupledQP.h [[[1; 0]]; [[5]]] [[1; 1]; [2]] = Ok hv /\
    CoupledQP.a2dr_constr_vio_val 2 [[[1; 2]]; [[3]]] ds Gm hv [[1; 1]; [2]]
    = Ok 0.
Proof.
  apply (generated_point_zero_violation 2 1 [[[1; 2]]; [[3]]]
           [[[1; 0]]; [[5]]] [[1; 1]; [2]]); try reflexivity; try lia.
  - repeat constructor.
  - repeat constructor.
  - repeat constructor.
Defined.

(** ** The coupled QP: the subproblem is the proximal problem *)







(** ** The coupled QP: the generated [Q_l] are symmetric positive
    semidefinite *)



Lemma Forall_map2 {A B C : Type} (P : C -> Prop) (f : A -> B -> C)
  (u : list A) (v : list B) :
  (forall a b, In a u -> In b v -> P (f a b)) -> Forall P (map2 f u v).
Proof.
  revert v; induction u as [|a u IH]; intros [|b v] H; simpl;
    try constructor.
  - apply H; now left.
  - apply IH. intros a' b' Ha Hb. apply H; now right.
Qed.











(** ** The coupled QP: the operator on a generated block *)


Lemma add_scalar_length (u : vec) (s : R) :
  length (np.add_scalar u s) = length u.
Proof. apply length_map. Qed.




(** ** The coupled QP: the shapes of the generated data *)

Lemma hstack_rows_shape (s : nat) (Gs : list mat) (zs : list vec) :
  Forall (fun G : mat => length G = s) Gs ->
  Forall2 (fun (G : mat) (z : vec) =>
             Forall (fun row : vec => length row = length z) G) Gs zs ->
  has_shape s (length (concat zs)) (np.hstack_rows Gs s).
Proof.
  intros Hrows Hcols. induction Hcols as [|G z Gs zs HG _ IH]; simpl.
  - split; [apply repeat_length|].
    apply Forall_forall. intros r Hin. apply repeat_spec in Hin. now subst r.
  - inversion Hrows as [|? ? HGs Hrest]; subst.
    destruct (IH Hrest) as [IH1 IH2]. split.
    + rewrite map2_length; lia.
    + apply Forall_map2. intros row rest Hrow Hin.
      rewrite !length_app. rewrite Forall_forall in HG, IH2.
      now rewrite (HG row Hrow), (IH2 rest Hin).
Qed.

(** X18. The data cell produces data of matching dimensions: for [L >= 1]
    blocks whose [F_l] and [G_l] have as many columns as [z_tld_l] has
    entries, every [G_l] with [s] rows, [G] has [s] rows and one column
    per entry of [z_tld], [z_tld] has the summed length of the blocks, [h]
    lies in [R^s], and every [d_l] has one entry per row of [F_l]. *)
Theorem generated_data_shapes (L s : nat) (F_list G_list : list mat)
  (z_tld_list : list vec) :
  (1 <= L)%nat ->
  length F_list = L -> length G_list = L -> length z_tld_list = L ->
  Forall2 (fun (F : mat) (z : vec) =>
             Forall (fun row : vec => length row = length z) F)
          F_list z_tld_list ->
  Forall (fun G : mat => length G = s) G_list ->
  Forall2 (fun (G : mat) (z : vec) =>
             Forall (fun row : vec => length row = length z) G)
          G_list z_tld_list ->
  exists (ds : list vec) (Gm : mat) (zt hv : vec),
    CoupledQP.d_list L F_list z_tld_list = Ok ds /\
    CoupledQP.G G_list = Ok Gm /\
    CoupledQP.z_tld z_tld_list = Ok zt /\
    CoupledQP.h G_list z_tld_list = Ok hv /\
    has_shape s (length zt) Gm /\
    length zt = list_sum (map (@length R) z_tld_list) /\
    length hv = s /\
    Forall2 (fun (F : mat) (d : vec) => length d = length F) F_list ds.
Proof.
  intros HL HF HG Hz _ Hrows Hcols.
  set (ds := map (fun l => np.add_scalar
                             (np.matvec (nth l F_list []) (nth l z_tld_list []))
                             0.1) (range L)).
  assert (HGm : CoupledQP.G G_list = Ok (np.hstack_rows G_list s)).
  { unfold CoupledQP.G. destruct G_list as [|G Gs]; [simpl in HG; lia|].
    now apply hstack_ok. }
  assert (Hzt : CoupledQP.z_tld z_tld_list = Ok (concat z_tld_list)).
  { unfold CoupledQP.z_tld. apply hstack1_ok.
    destruct z_tld_list; simpl in *; [lia | congruence]. }
  pose proof (hstack_rows_shape s G_list z_tld_list Hrows Hcols) as Hshape.
  exists ds, (np.hstack_rows G_list s), (concat z_tld_list),
    (np.matvec (np.hstack_rows G_list s) (concat z_tld_list)).
  split; [|split; [exact HGm|split; [exact Hzt|split; [|split; [exact Hshape|split; [|split]]]]]].
  - unfold CoupledQP.d_list. apply mapM_range_ok. intros i Hi.
    rewrite (index_nth F_list i []), (index_nth z_tld_list i []) by lia.
    reflexivity.
  - unfold CoupledQP.h. rewrite HGm, Hzt. reflexivity.
  - apply length_concat.
  - rewrite matvec_length. apply Hshape.
  - apply Forall2_nth_error.
    + unfold ds, range. now rewrite length_map, length_seq.
    + intros i F d HiF Hid. apply nth_error_map_range in Hid as [Hi ->].
      rewrite add_scalar_length, matvec_length.
      now rewrite (nth_error_nth F_list i [] HiF).
Qed.

Lemma generated_data_shapes_witness :
  exists (ds : list vec) (Gm : mat) (zt hv : vec),
    CoupledQP.d_list 2 [[[1; 2]]; [[3]]] [[1; 1]; [2]] = Ok ds /\
    CoupledQP.G [[[1; 0]]; [[5]]] = Ok Gm /\
    CoupledQP.z_tld [[1; 1]; [2]] = Ok zt /\
    CoupledQP.h [[[1; 0]]; [[5]]] [[1; 1]; [2]] = Ok hv /\
    has_shape 1 (length zt) Gm /\
    length zt = list_sum (map (@length R) [[1; 1]; [2]]) /\
    length hv = 1%nat /\
    Forall2 (fun (F : mat) (d : vec) => length d = length F)
            [[[1; 2]]; [[3]]] ds.
Proof.
  apply (generated_data_shapes 2 1 [[[1; 2]]; [[3]]] [[[1; 0]]; [[5]]]
           [[1; 1]; [2]]); try reflexivity; try lia.
  - repeat constructor.
  - repeat constructor.
  - repeat constructor.
Defined.

(** ** The coupled QP: too few random draws *)

(** X19. The data cell indexes its lists up to [L]: when [F_list] or
    [z_tld_list] holds fewer than [L] draws and the pairs that are there
    are well-shaped, building [d_list] raises [IndexError]; and building
    [Q_list] raises [IndexError] when [H_list] is too short. *)
Theorem data_cell_too_few_draws (L : nat) (F_list H_list : list mat)
  (z_tld_list : list vec) :
  ((forall l F z,
      nth_error F_list l = Some F -> nth_error z_tld_list l = Some z ->
      Forall (fun row : vec => length row = length z) F) ->
   (length F_list < L)%nat \/ (length z_tld_list < L)%nat ->
   CoupledQP.d_list L F_list z_tld_list = Raise IndexError) /\
  ((length H_list < L)%nat ->
   CoupledQP.Q_list L H_list = Raise IndexError).
Proof.
  split.
  - intros _ Hshort. unfold CoupledQP.d_list.
    apply (mapM_raise _ IndexError).
    + intros l _.
      destruct (index_cases F_list l) as [[_ [F ->]]|[_ ->]]; [|now left].
      destruct (index_cases z_tld_list l) as [[_ [z ->]]|[_ ->]]; [|now left].
      right. eexists. reflexivity.
    + exists (Nat.min (length F_list) (length z_tld_list)). split.
      * unfold range. apply in_seq. lia.
      * destruct (index_cases F_list
                    (Nat.min (length F_list) (length z_tld_list)))
          as [[HF [F ->]]|[_ ->]]; [|reflexivity].
        destruct (index_cases z_tld_list
                    (Nat.min (length F_list) (length z_tld_list)))
          as [[Hz _]|[_ ->]]; [lia | reflexivity].
  - intros Hshort. unfold CoupledQP.Q_list.
    apply (mapM_raise _ IndexError).
    + intros l _.
      destruct (index_cases H_list l) as [[_ [H ->]]|[_ ->]]; [|now left].
      right. eexists. reflexivity.
    + exists (length H_list). split.
      * unfold range. apply in_seq. lia.
      * destruct (index_cases H_list (length H_list)) as [[H _]|[_ ->]];
          [lia | reflexivity].
Qed.
